(** * BlockedModsDialog: the matching engine of the blocked-mods dialog

    A shallow embedding of [launcher/ui/dialogs/BlockedModsDialog.cpp].
    The dialog keeps a list of blocked mods, hashes local files through a
    bounded task pool and marks a mod as matched as soon as a file with its
    hash shows up; a directory watcher revalidates and rescans.

    Qt is taken as an interface (class [Qt]): the development holds for
    every implementation of [QString::compare], [QFileInfo::fileName] and
    [QUrl::toLocalFile].  The file system is a value that every operation
    reading it receives, since it changes between two events. *)

From Stdlib Require Import ZArith String Ascii List Bool Lia.
From stdpp Require Import base list strings.

Local Open Scope string_scope.
Local Open Scope nat_scope.
Local Open Scope list_scope.

(** ** Qt, as far as the dialog uses it *)

Inductive CaseSensitivity := CaseInsensitive | CaseSensitive.

Class Qt := {
  (** [a.compare(b, cs)]: negative, zero or positive. *)
  QString_compare : string → string → CaseSensitivity → Z;
  (** [QFileInfo(path).fileName()]: the name of the file, without its path. *)
  QFileInfo_fileName : string → string;
  (** the urls carried by a drop event, and [url.toLocalFile()]. *)
  QUrl : Type;
  QUrl_toLocalFile : QUrl → string
}.

(** What [QFileInfo] and [QDirIterator] observe of the disk at one moment. *)
Record FileSystem := {
  (** [QFileInfo(path).exists()] *)
  fs_exists : string → bool;
  (** [QFileInfo(path).isFile()] *)
  fs_isFile : string → bool;
  (** [QFileInfo(path).isDir()] *)
  fs_isDir : string → bool;
  (** the paths [QDirIterator(path, Files | Hidden, NoIteratorFlags)] yields,
      in the order it yields them. *)
  fs_files : string → list string
}.

(** ** Data model *)

(** Modelled from the spec: the struct [BlockedMod], declared in the header
    [BlockedModsDialog.h].  The spec's BlockedEntry: expected file name,
    source url, expected hash, match flag and local path; the names and the
    order of the fields are those of the [QDebug] printer at the end of the
    .cpp. *)
Record BlockedMod := {
  name : string;
  websiteUrl : string;
  hash : string;
  matched : bool;
  localPath : string
}.

(** [mod.matched = b] and [mod.localPath = p] *)
Definition set_matched (b : bool) (m : BlockedMod) : BlockedMod :=
  {| name := name m; websiteUrl := websiteUrl m; hash := hash m;
     matched := b; localPath := localPath m |}.

Definition set_localPath (p : string) (m : BlockedMod) : BlockedMod :=
  {| name := name m; websiteUrl := websiteUrl m; hash := hash m;
     matched := matched m; localPath := p |}.

Inductive Provider := MODRINTH | FLAME.

(** Modelled from the spec: the task [Hashing::createBlockedModHasher(path,
    provider, type)] returns, declared outside this file.  The spec's
    PendingHashTask: a file path and the requested algorithm, here with the
    provider the call names. *)
Record Hasher := {
  hasher_path : string;
  hasher_provider : Provider;
  hasher_type : string
}.

Definition createBlockedModHasher (path : string) (p : Provider) (type : string)
  : Hasher :=
  {| hasher_path := path; hasher_provider := p; hasher_type := type |}.

(** Modelled from the spec: the class [ConcurrentTask] (its source is not part
    of the file verified here).  The spec's BoundedTaskPool: it accepts tasks
    into a queue, runs at most [m_total_max_size] of them at a time, and a
    start/drain operation begins processing what has been queued. *)
Record ConcurrentTask := {
  m_name : string;
  m_total_max_size : nat;
  m_queue : list Hasher;
  m_doing : list Hasher;
  m_done : list Hasher;
  m_started : bool
}.

(** Modelled from the spec: the constructor
    [ConcurrentTask(parent, task_name, max_concurrent)], an empty pool that
    is not started. *)
Definition ConcurrentTask_new (task_name : string) (max_concurrent : nat)
  : ConcurrentTask :=
  {| m_name := task_name; m_total_max_size := max_concurrent;
     m_queue := []; m_doing := []; m_done := []; m_started := false |}.

(** Modelled from the spec: [ConcurrentTask::addTask], the pool accepts the
    task at the back of its queue. *)
Definition addTask (t : Hasher) (c : ConcurrentTask) : ConcurrentTask :=
  {| m_name := m_name c; m_total_max_size := m_total_max_size c;
     m_queue := m_queue c ++ [t]; m_doing := m_doing c; m_done := m_done c;
     m_started := m_started c |}.

(** Modelled from the spec: [Task::start] on the pool, the drain/start
    operation; calling it again is harmless. *)
Definition start (c : ConcurrentTask) : ConcurrentTask :=
  {| m_name := m_name c; m_total_max_size := m_total_max_size c;
     m_queue := m_queue c; m_doing := m_doing c; m_done := m_done c;
     m_started := true |}.

(** Modelled from the spec: what the pool does on its own once started.  A
    queued task is moved to the running ones only while fewer than
    [m_total_max_size] run; a running task ends (it succeeds or it fails,
    the pool treats both alike) and frees its slot. *)
Inductive pool_step : ConcurrentTask → ConcurrentTask → Prop :=
| pool_dispatch c t q :
    m_started c = true →
    m_queue c = t :: q →
    length (m_doing c) < m_total_max_size c →
    pool_step c
      {| m_name := m_name c; m_total_max_size := m_total_max_size c;
         m_queue := q; m_doing := m_doing c ++ [t]; m_done := m_done c;
         m_started := true |}
| pool_finish c l1 t l2 :
    m_doing c = l1 ++ t :: l2 →
    pool_step c
      {| m_name := m_name c; m_total_max_size := m_total_max_size c;
         m_queue := m_queue c; m_doing := l1 ++ l2; m_done := t :: m_done c;
         m_started := m_started c |}.

(** Modelled from the spec: the dispatch step as a function, for running
    the pool: the task at the head of the queue starts. *)
Definition dispatch_next (c : ConcurrentTask) : ConcurrentTask :=
  match m_queue c with
  | t :: q =>
      {| m_name := m_name c; m_total_max_size := m_total_max_size c;
         m_queue := q; m_doing := m_doing c ++ [t]; m_done := m_done c;
         m_started := true |}
  | [] => c
  end.

(** [n] steps of the pool. *)
Inductive pool_steps : nat → ConcurrentTask → ConcurrentTask → Prop :=
| pool_steps_O c : pool_steps 0 c c
| pool_steps_S n c c' c'' :
    pool_step c c' → pool_steps n c' c'' → pool_steps (S n) c c''.

(** The tasks a pool has accepted so far, wherever they are now. *)
Definition accepted (c : ConcurrentTask) : list Hasher :=
  m_queue c ++ m_doing c ++ m_done c.

(** The work a pool still has: a queued task is dispatched and then ends, a
    running one ends. *)
Definition pending_work (c : ConcurrentTask) : nat :=
  2 * length (m_queue c) + length (m_doing c).

(** The pool has nothing left to do. *)
Definition pool_idle (c : ConcurrentTask) : Prop :=
  m_queue c = [] ∧ m_doing c = [].

(** The state the dialog keeps its pool in: made with room for ten tasks, at
    most ten of them running, and started as soon as it has accepted one. *)
Definition pool_ready (c : ConcurrentTask) : Prop :=
  m_total_max_size c = 10 ∧ length (m_doing c) ≤ 10 ∧
  (accepted c = [] ∨ m_started c = true).

(** The rendering [update] writes to the text browser: one line per mod. *)
Inductive Span := Found (path : string) | NotFound.

Record ModLine := {
  line_name : string;
  line_url : string;
  line_hash : string;
  line_span : Span
}.

Inductive FoundLabel := AllModsFound | PleaseDownload.

Record Ui := {
  textBrowser : list ModLine;
  labelModsFound : FoundLabel
}.

(** What the dialog did, oldest first: used to state in which order the
    effects of a handler happen. *)
Inductive Event :=
| Updated
| HashTaskAdded (path : string)
| HashingStarted.

(** The members of [BlockedModsDialog].  Of the [QFileSystemWatcher] the
    dialog reads [directories()] only: [watcher] is that list. *)
Record Dialog := {
  mods : list BlockedMod;
  watcher : list string;
  hashing_task : ConcurrentTask;
  ui : Ui;
  events : list Event
}.

Definition set_mods (ms : list BlockedMod) (d : Dialog) : Dialog :=
  {| mods := ms; watcher := watcher d; hashing_task := hashing_task d;
     ui := ui d; events := events d |}.

Definition set_ui (u : Ui) (d : Dialog) : Dialog :=
  {| mods := mods d; watcher := watcher d; hashing_task := hashing_task d;
     ui := u; events := events d |}.

Definition set_hashing_task (c : ConcurrentTask) (d : Dialog) : Dialog :=
  {| mods := mods d; watcher := watcher d; hashing_task := c;
     ui := ui d; events := events d |}.

(** [watcher.addPath(dir)], as [QFileSystemWatcher] documents it: a path
    that does not exist or that is already watched is not added, and only a
    path that is a directory shows among [directories()]. *)
Definition watcher_addPath (fs : FileSystem) (dir : string) (d : Dialog)
  : Dialog :=
  if fs_exists fs dir && fs_isDir fs dir
     && negb (bool_decide (dir ∈ watcher d))
  then {| mods := mods d; watcher := watcher d ++ [dir];
          hashing_task := hashing_task d; ui := ui d; events := events d |}
  else d.

Definition emit (e : Event) (d : Dialog) : Dialog :=
  {| mods := mods d; watcher := watcher d; hashing_task := hashing_task d;
     ui := ui d; events := events d ++ [e] |}.

(** ** The member functions *)

Section Dialog.
Context `{Qt}.

(** [a.compare(b, Qt::CaseInsensitive) == 0] *)
Definition equal_ci (a b : string) : bool :=
  (QString_compare a b CaseInsensitive =? 0)%Z.

(** [allModsMatched]: [std::all_of] over the mods. *)
Fixpoint all_of {A} (p : A → bool) (l : list A) : bool :=
  match l with
  | [] => true
  | x :: l' => if p x then all_of p l' else false
  end.

Definition allModsMatched (d : Dialog) : bool := all_of matched (mods d).

Definition render (m : BlockedMod) : ModLine :=
  {| line_name := name m; line_url := websiteUrl m; line_hash := hash m;
     line_span := if matched m then Found (localPath m) else NotFound |}.

(** [update]: the text browser shows every mod, the label says whether all
    are found. *)
Definition update (d : Dialog) : Dialog :=
  emit Updated
    (set_ui {| textBrowser := map render (mods d);
               labelModsFound :=
                 if allModsMatched d then AllModsFound else PleaseDownload |}
            d).

(** [addHashTask]: the completion callbacks are connected to the task (they
    run when the pool ends it, see [hash_succeeded]) and the task is handed
    to the pool. *)
Definition addHashTask (path : string) (d : Dialog) : Dialog :=
  let hash_task := createBlockedModHasher path FLAME "sha1" in
  emit (HashTaskAdded path)
    (set_hashing_task (addTask hash_task (hashing_task d)) d).

Definition hashing_task_start (d : Dialog) : Dialog :=
  emit HashingStarted (set_hashing_task (start (hashing_task d)) d).

(** The body of the loop of [checkMatchHash] on the mods from the current
    one on: the new mods and the flag [match]. *)
Fixpoint checkMatchHash_loop (h path : string) (ms : list BlockedMod)
  : list BlockedMod * bool :=
  match ms with
  | [] => ([], false)
  | m :: rest =>
      if matched m then
        let '(rest', found) := checkMatchHash_loop h path rest in
        (m :: rest', found)
      else if equal_ci (hash m) h then
        (set_localPath path (set_matched true m) :: rest, true)
      else
        let '(rest', found) := checkMatchHash_loop h path rest in
        (m :: rest', found)
  end.

Definition checkMatchHash (h path : string) (d : Dialog) : Dialog :=
  let '(ms, found) := checkMatchHash_loop h path (mods d) in
  let d' := set_mods ms d in
  if found then update d' else d'.

(** [checkValidPath]: does the file name of [path] name a blocked mod? *)
Fixpoint checkValidPath_loop (filename : string) (ms : list BlockedMod) : bool :=
  match ms with
  | [] => false
  | m :: rest =>
      if equal_ci (name m) filename then true
      else checkValidPath_loop filename rest
  end.

Definition checkValidPath (path : string) (d : Dialog) : bool :=
  let filename := QFileInfo_fileName path in
  checkValidPath_loop filename (mods d).

(** [validateMatchedMods]: the loop carries the flag [changed]. *)
Fixpoint validateMatchedMods_loop (fs : FileSystem) (ms : list BlockedMod)
  (changed : bool) : list BlockedMod * bool :=
  match ms with
  | [] => ([], changed)
  | m :: rest =>
      if matched m then
        if negb (fs_exists fs (localPath m)) || negb (fs_isFile fs (localPath m))
        then
          let '(rest', changed') := validateMatchedMods_loop fs rest true in
          (set_matched false (set_localPath "" m) :: rest', changed')
        else
          let '(rest', changed') := validateMatchedMods_loop fs rest changed in
          (m :: rest', changed')
      else
        let '(rest', changed') := validateMatchedMods_loop fs rest changed in
        (m :: rest', changed')
  end.

Definition validateMatchedMods (fs : FileSystem) (d : Dialog) : Dialog :=
  let '(ms, changed) := validateMatchedMods_loop fs (mods d) false in
  let d' := set_mods ms d in
  if changed then update d' else d'.

(** [scanPath]: the loop over the directory iterator, then the pool is
    started. *)
Fixpoint scanPath_loop (files : list string) (d : Dialog) : Dialog :=
  match files with
  | [] => d
  | file :: rest =>
      if negb (checkValidPath file d) then scanPath_loop rest d
      else scanPath_loop rest (addHashTask file d)
  end.

Definition scanPath (fs : FileSystem) (path : string) (d : Dialog) : Dialog :=
  hashing_task_start (scanPath_loop (fs_files fs path) d).

Definition scanPaths (fs : FileSystem) (d : Dialog) : Dialog :=
  fold_left (fun d dir => scanPath fs dir d) (watcher d) d.

Definition directoryChanged (fs : FileSystem) (path : string) (d : Dialog)
  : Dialog :=
  let d := validateMatchedMods fs d in
  scanPath fs path d.

Definition dropEvent (urls : list QUrl) (d : Dialog) : Dialog :=
  hashing_task_start
    (fold_left (fun d url => addHashTask (QUrl_toLocalFile url) d) urls d).

(** [addDownloadFolder], with the directory the user chose. *)
Definition addDownloadFolder (fs : FileSystem) (dir : string) (d : Dialog)
  : Dialog :=
  scanPath fs dir (watcher_addPath fs dir d).

Definition setupWatch (fs : FileSystem) (downloadsFolder modsFolder : string)
  (d : Dialog) : Dialog :=
  watcher_addPath fs modsFolder (watcher_addPath fs downloadsFolder d).

(** The constructor, with the two folders the application settings give. *)
Definition BlockedModsDialog_new (fs : FileSystem)
  (downloadsFolder modsFolder : string) (ms : list BlockedMod) : Dialog :=
  let d := {| mods := ms; watcher := [];
              hashing_task := ConcurrentTask_new "MakeHashesTask" 10;
              ui := {| textBrowser := []; labelModsFound := PleaseDownload |};
              events := [] |} in
  let d := setupWatch fs downloadsFolder modsFolder d in
  let d := scanPaths fs d in
  update d.

(** The lambda connected to [Task::succeeded] in [addHashTask]. *)
Definition hash_succeeded (result : string) (t : Hasher) (d : Dialog) : Dialog :=
  checkMatchHash result (hasher_path t) d.

End Dialog.

(** ** Vocabulary of the statements *)

Section Vocabulary.
Context `{Qt}.

(** An entry a call [checkMatchHash h _] may still take: it is not matched
    and its hash is [h], compared as the code compares. *)
Definition candidate (h : string) (m : BlockedMod) : bool :=
  negb (matched m) && equal_ci (hash m) h.

(** The entry at index [i] is the first candidate of the list. *)
Definition first_candidate (h : string) (ms : list BlockedMod) (i : nat)
  (m : BlockedMod) : Prop :=
  ms !! i = Some m ∧ candidate h m = true ∧
  ∀ j m', j < i → ms !! j = Some m' → candidate h m' = false.

(** A matched entry whose file is no longer an existing regular file. *)
Definition stale (fs : FileSystem) (m : BlockedMod) : bool :=
  matched m && negb (fs_exists fs (localPath m) && fs_isFile fs (localPath m)).

(** The name of the file at [path] is the name of entry [m]. *)
Definition names (m : BlockedMod) (path : string) : bool :=
  equal_ci (name m) (QFileInfo_fileName path).

(** The invariant of an entry: matched exactly when it has a local path. *)
Definition path_invariant (m : BlockedMod) : Prop :=
  matched m = true ↔ localPath m ≠ "".

Definition unmatched_entry (m : BlockedMod) : Prop :=
  matched m = false ∧ localPath m = "".

(** What revalidation makes of one entry. *)
Definition revalidated (fs : FileSystem) (m : BlockedMod) : BlockedMod :=
  if stale fs m then set_matched false (set_localPath "" m) else m.

(** The hash task [addHashTask] creates for a path. *)
Definition hasher_of (path : string) : Hasher :=
  createBlockedModHasher path FLAME "sha1".

(** The files of a listing that pass the name check of [scanPath]. *)
Definition relevant_files (d : Dialog) (files : list string) : list string :=
  List.filter (λ file, checkValidPath file d) files.

(** The sentence on already matched names, as the specification has it: a
    scan adds no hash task for a listed file whose name is the name of
    matched entries only. *)
Definition scan_skips_matched_names : Prop :=
  ∀ (fs : FileSystem) (path : string) (d : Dialog) (file : string),
    file ∈ fs_files fs path →
    (∃ m, m ∈ mods d ∧ names m file = true) →
    (∀ m, m ∈ mods d → names m file = true → matched m = true) →
    hasher_of file ∉
      drop (length (m_queue (hashing_task d)))
           (m_queue (hashing_task (scanPath fs path d))).

(** The state after a run of [addHashTask] calls. *)
Definition with_hash_tasks (paths : list string) (d : Dialog) : Dialog :=
  {| mods := mods d; watcher := watcher d;
     hashing_task :=
       {| m_name := m_name (hashing_task d);
          m_total_max_size := m_total_max_size (hashing_task d);
          m_queue := m_queue (hashing_task d) ++ map hasher_of paths;
          m_doing := m_doing (hashing_task d);
          m_done := m_done (hashing_task d);
          m_started := m_started (hashing_task d) |};
     ui := ui d;
     events := events d ++ map HashTaskAdded paths |}.

(** What happens to a dialog after its construction: the slots and handlers
    of the class, and the completion of a hash task. *)
Inductive Action :=
| CheckMatchHash (h path : string)
| ValidateMatchedMods (fs : FileSystem)
| DirectoryChanged (fs : FileSystem) (path : string)
| ScanPath (fs : FileSystem) (path : string)
| AddDownloadFolder (fs : FileSystem) (dir : string)
| DropEvent (urls : list QUrl)
| Update.

Definition perform (a : Action) (d : Dialog) : Dialog :=
  match a with
  | CheckMatchHash h path => checkMatchHash h path d
  | ValidateMatchedMods fs => validateMatchedMods fs d
  | DirectoryChanged fs path => directoryChanged fs path d
  | ScanPath fs path => scanPath fs path d
  | AddDownloadFolder fs dir => addDownloadFolder fs dir d
  | DropEvent urls => dropEvent urls d
  | Update => update d
  end.

Definition perform_all (actions : list Action) (d : Dialog) : Dialog :=
  fold_left (λ d a, perform a d) actions d.

(** The precondition on a confirmation: the path of the hashed file is not
    the empty string. *)
Definition nonempty_path (a : Action) : Prop :=
  match a with
  | CheckMatchHash _ path => path ≠ ""
  | _ => True
  end.

(** The states of a dialog: it is constructed, its handlers run, and in
    between the pool of hash tasks makes steps of its own. *)
Inductive dialog_reachable : Dialog → Prop :=
| reachable_new fs downloadsFolder modsFolder ms :
    dialog_reachable (BlockedModsDialog_new fs downloadsFolder modsFolder ms)
| reachable_perform a d :
    dialog_reachable d → dialog_reachable (perform a d)
| reachable_pool_step d c' :
    dialog_reachable d → pool_step (hashing_task d) c' →
    dialog_reachable (set_hashing_task c' d).

End Vocabulary.

(** ** What the further statements observe *)

Section Observations.
Context `{Qt}.

(** The text browser and the label show the mods as they are now. *)
Definition ui_in_sync (d : Dialog) : Prop :=
  textBrowser (ui d) = map render (mods d) ∧
  labelModsFound (ui d) =
    if allModsMatched d then AllModsFound else PleaseDownload.

(** What identifies an entry: the fields no member function assigns. *)
Definition entry_key (m : BlockedMod) : string * string * string :=
  (name m, websiteUrl m, hash m).

Definition candidate_count (h : string) (ms : list BlockedMod) : nat :=
  length (List.filter (candidate h) ms).

Definition matched_count (ms : list BlockedMod) : nat :=
  length (List.filter matched ms).

(** The hash tasks of several files end with the same hash [h]. *)
Definition hash_results (h : string) (paths : list string) : list Action :=
  map (CheckMatchHash h) paths.

(** The actions that do not revalidate. *)
Definition keeps_matches (a : Action) : Prop :=
  match a with
  | ValidateMatchedMods _ | DirectoryChanged _ _ => False
  | _ => True
  end.

(** The tasks the pool of [d'] has in its queue beyond those of [d]. *)
Definition queued_since (d d' : Dialog) : list Hasher :=
  drop (length (m_queue (hashing_task d))) (m_queue (hashing_task d')).

(** The pool of the dialog dispatches [n] queued tasks. *)
Definition dispatch_tasks (n : nat) (d : Dialog) : Dialog :=
  Nat.iter n (λ d, set_hashing_task (dispatch_next (hashing_task d)) d) d.

End Observations.

(** ** An implementation of the Qt interface, to run the model

    Case folding of the ASCII letters, file names after the last slash and
    urls that either name a local file or do not. *)

Module AsciiQt.

Definition toLower (c : ascii) : ascii :=
  let n := nat_of_ascii c in
  if (65 <=? n) && (n <=? 90) then ascii_of_nat (n + 32) else c.

Definition fold_case (cs : CaseSensitivity) (c : ascii) : nat :=
  match cs with
  | CaseInsensitive => nat_of_ascii (toLower c)
  | CaseSensitive => nat_of_ascii c
  end.

Fixpoint compare (a b : string) (cs : CaseSensitivity) : Z :=
  match a, b with
  | EmptyString, EmptyString => 0%Z
  | EmptyString, String _ _ => (-1)%Z
  | String _ _, EmptyString => 1%Z
  | String x a', String y b' =>
      if fold_case cs x =? fold_case cs y then compare a' b' cs
      else (Z.of_nat (fold_case cs x) - Z.of_nat (fold_case cs y))%Z
  end.

Fixpoint has_slash (s : string) : bool :=
  match s with
  | EmptyString => false
  | String c s' => if Ascii.eqb c "/" then true else has_slash s'
  end.

Fixpoint fileName (s : string) : string :=
  match s with
  | EmptyString => EmptyString
  | String c s' =>
      if has_slash s' then fileName s'
      else if Ascii.eqb c "/" then s' else s
  end.

Inductive Url := LocalFile (path : string) | Remote (address : string).

Definition toLocalFile (u : Url) : string :=
  match u with
  | LocalFile path => path
  | Remote _ => ""
  end.

Definition qt : Qt := {|
  QString_compare := compare;
  QFileInfo_fileName := fileName;
  QUrl := Url;
  QUrl_toLocalFile := toLocalFile
|}.

End AsciiQt.

(** ** Concrete dialogs and disks for the scenarios *)

Module Scenario.

(** A dialog that holds the given mods and has done nothing yet. *)
Definition dialog_of (ms : list BlockedMod) : Dialog :=
  {| mods := ms; watcher := [];
     hashing_task := ConcurrentTask_new "MakeHashesTask" 10;
     ui := {| textBrowser := []; labelModsFound := PleaseDownload |};
     events := [] |}.

Definition blocked (n url h : string) : BlockedMod :=
  {| name := n; websiteUrl := url; hash := h; matched := false;
     localPath := "" |}.

Definition foo : BlockedMod := blocked "Foo.jar" "https://mods.example/foo" "abc123".
Definition foo_matched : BlockedMod :=
  set_localPath "/dl/Foo.jar" (set_matched true foo).

Definition dup_a : BlockedMod := blocked "A.jar" "https://mods.example/a" "dup1".
Definition dup_b : BlockedMod := blocked "B.jar" "https://mods.example/b" "dup1".

(** A disk with the directory [/dl], the files [present] in it and nothing
    else. *)
Definition disk (present : list string) : FileSystem :=
  {| fs_exists := λ p, bool_decide (p ∈ present) || String.eqb p "/dl";
     fs_isFile := λ p, bool_decide (p ∈ present);
     fs_isDir := λ p, String.eqb p "/dl";
     fs_files := λ dir, if String.eqb dir "/dl" then present else [] |}.

(** Twelve files a user drops on the dialog. *)
Definition dropped_files : list string :=
  ["/tmp/01.jar"; "/tmp/02.jar"; "/tmp/03.jar"; "/tmp/04.jar";
   "/tmp/05.jar"; "/tmp/06.jar"; "/tmp/07.jar"; "/tmp/08.jar";
   "/tmp/09.jar"; "/tmp/10.jar"; "/tmp/11.jar"; "/tmp/12.jar"].

End Scenario.

(** * Properties *)

Example ascii_compare_ci : AsciiQt.compare "ABC123" "abc123" CaseInsensitive = 0%Z.
Proof. reflexivity. Qed.

Example ascii_fileName : AsciiQt.fileName "/home/u/Downloads/Foo.jar" = "Foo.jar".
Proof. reflexivity. Qed.


(** ** checkMatchHash *)

Section CheckMatchHash.
Context `{Qt}.
Implicit Types (d : Dialog) (ms : list BlockedMod) (m : BlockedMod).
Implicit Types (h path : string).

Lemma checkMatchHash_loop_skip h path m ms :
  candidate h m = false →
  checkMatchHash_loop h path (m :: ms) =
    (m :: (checkMatchHash_loop h path ms).1, (checkMatchHash_loop h path ms).2).
Proof.
  unfold candidate. intros Hc. simpl.
  destruct (matched m); simpl in Hc.
  - by destruct (checkMatchHash_loop h path ms).
  - rewrite Hc. by destruct (checkMatchHash_loop h path ms).
Qed.

Lemma checkMatchHash_loop_take h path m ms :
  candidate h m = true →
  checkMatchHash_loop h path (m :: ms) =
    (set_localPath path (set_matched true m) :: ms, true).
Proof.
  unfold candidate. intros [Hm He]%andb_true_iff. simpl.
  apply negb_true_iff in Hm. by rewrite Hm, He.
Qed.

Lemma checkMatchHash_loop_none h path ms :
  (∀ m, m ∈ ms → candidate h m = false) →
  checkMatchHash_loop h path ms = (ms, false).
Proof.
  induction ms as [|m ms IH]; intros Hall; [done|].
  rewrite checkMatchHash_loop_skip by (apply Hall; left).
  rewrite IH; [done|]. intros m' Hm'. apply Hall. by right.
Qed.

Lemma checkMatchHash_loop_first h path ms i m :
  first_candidate h ms i m →
  checkMatchHash_loop h path ms =
    (<[i := set_localPath path (set_matched true m)]> ms, true).
Proof.
  revert i. induction ms as [|m0 ms IH]; intros i (Hi & Hc & Hbefore).
  - by rewrite lookup_nil in Hi.
  - destruct i as [|i]; simpl in Hi.
    + injection Hi as ->. by rewrite checkMatchHash_loop_take.
    + rewrite checkMatchHash_loop_skip by (apply (Hbefore 0); [lia|done]).
      rewrite (IH i); [done|]. split_and!; [done..|].
      intros j m' Hj Hm'. apply (Hbefore (S j)); [lia|done].
Qed.

(** Either the list has a first candidate or it has no candidate at all. *)
Lemma first_candidate_or_none h ms :
  (∃ i m, first_candidate h ms i m) ∨ (∀ m, m ∈ ms → candidate h m = false).
Proof.
  induction ms as [|m0 ms [(i & m & Hi & Hc & Hb)|Hnone]].
  - right. intros m Hm. by apply elem_of_nil in Hm.
  - destruct (candidate h m0) eqn:H0.
    + left. exists 0, m0. split_and!; [done..|]. intros; lia.
    + left. exists (S i), m. split_and!; [done..|].
      intros [|j] m' Hj Hm'; simpl in Hm'; [by injection Hm' as <-|].
      apply (Hb j); [lia|done].
  - destruct (candidate h m0) eqn:H0.
    + left. exists 0, m0. split_and!; [done..|]. intros; lia.
    + right. intros m [->|Hm]%elem_of_cons; auto.
Qed.

Lemma candidate_taken h path m :
  candidate h (set_localPath path (set_matched true m)) = false.
Proof. done. Qed.

Lemma checkMatchHash_first h path d i m :
  first_candidate h (mods d) i m →
  checkMatchHash h path d =
    update (set_mods (<[i := set_localPath path (set_matched true m)]> (mods d)) d).
Proof.
  intros Hf. unfold checkMatchHash.
  by rewrite (checkMatchHash_loop_first _ _ _ _ _ Hf).
Qed.

Lemma checkMatchHash_none h path d :
  (∀ m, m ∈ mods d → candidate h m = false) →
  checkMatchHash h path d = d.
Proof.
  intros Hn. unfold checkMatchHash. rewrite checkMatchHash_loop_none by done.
  by destruct d.
Qed.

(** After the first candidate is taken, the next call sees as its first
    candidate the next candidate of the original list. *)
Lemma first_candidate_after h path ms i m j m2 :
  first_candidate h ms i m →
  i < j → ms !! j = Some m2 → candidate h m2 = true →
  (∀ k mk, i < k < j → ms !! k = Some mk → candidate h mk = false) →
  first_candidate h (<[i := set_localPath path (set_matched true m)]> ms) j m2.
Proof.
  intros (Hi & Hc & Hb) Hij Hj Hc2 Hbetween. split_and!; [|done|].
  - rewrite list_lookup_insert_ne by lia. done.
  - intros k mk Hk Hmk.
    destruct (decide (k = i)) as [->|Hne].
    + rewrite list_lookup_insert_eq in Hmk by (by eapply lookup_lt_Some).
      injection Hmk as <-. apply candidate_taken.
    + rewrite list_lookup_insert_ne in Hmk by done.
      destruct (decide (k < i)); [by eapply Hb|].
      apply (Hbetween k); [lia|done].
Qed.

Lemma no_candidate_after h path ms i m :
  first_candidate h ms i m →
  (∀ k mk, i < k → ms !! k = Some mk → candidate h mk = false) →
  ∀ m', m' ∈ <[i := set_localPath path (set_matched true m)]> ms →
        candidate h m' = false.
Proof.
  intros (Hi & Hc & Hb) Hafter m' (k & Hk)%list_elem_of_lookup_1.
  destruct (decide (k = i)) as [->|Hne].
  - rewrite list_lookup_insert_eq in Hk by (by eapply lookup_lt_Some).
    injection Hk as <-. apply candidate_taken.
  - rewrite list_lookup_insert_ne in Hk by done.
    destruct (decide (k < i)); [by eapply Hb|].
    apply (Hafter k); [lia|done].
Qed.

End CheckMatchHash.

Section CheckMatchHashSpec.
Context `{Qt}.
Implicit Types (d : Dialog) (ms : list BlockedMod) (m : BlockedMod).
Implicit Types (h path : string).

(** C1: [checkMatchHash h path] scans the mods in list order, skips the
    matched ones and gives [matched = true] and [localPath = path] to the
    first unmatched entry whose hash equals [h] case-insensitively (the
    comparison [QString::compare] with [Qt::CaseInsensitive] gives 0), and to
    no other entry.  A second call with the same hash then takes the next
    unmatched entry with that hash when there is one, and otherwise changes
    nothing at all. *)
Theorem checkMatchHash_first_unmatched h path d i m :
  first_candidate h (mods d) i m →
  let d1 := checkMatchHash h path d in
  mods d1 =
    <[i := {| name := name m; websiteUrl := websiteUrl m; hash := hash m;
              matched := true; localPath := path |}]> (mods d)
  ∧ (∃ m1, mods d1 !! i = Some m1 ∧ matched m1 = true ∧ localPath m1 = path ∧
           name m1 = name m ∧ websiteUrl m1 = websiteUrl m ∧ hash m1 = hash m)
  ∧ (∀ k, k ≠ i → mods d1 !! k = mods d !! k)
  ∧ (∀ path2 j m2,
       i < j → mods d !! j = Some m2 → candidate h m2 = true →
       (∀ k mk, i < k < j → mods d !! k = Some mk → candidate h mk = false) →
       mods (checkMatchHash h path2 d1) =
         <[j := {| name := name m2; websiteUrl := websiteUrl m2;
                   hash := hash m2; matched := true; localPath := path2 |}]>
           (mods d1)
       ∧ ∃ mi mj, mods (checkMatchHash h path2 d1) !! i = Some mi ∧
                  mods (checkMatchHash h path2 d1) !! j = Some mj ∧
                  matched mi = true ∧ localPath mi = path ∧
                  matched mj = true ∧ localPath mj = path2)
  ∧ (∀ path2,
       (∀ k mk, i < k → mods d !! k = Some mk → candidate h mk = false) →
       checkMatchHash h path2 d1 = d1)
  ∧ (∀ m', candidate h m' = true ↔
           matched m' = false ∧
           QString_compare (hash m') h CaseInsensitive = 0%Z).
Proof.
  intros Hf d1.
  assert (Hd1 : mods d1 = <[i := set_localPath path (set_matched true m)]> (mods d)).
  { unfold d1. by rewrite (checkMatchHash_first _ _ _ _ _ Hf). }
  assert (Hlt : i < length (mods d)).
  { destruct Hf as (Hi & _). by eapply lookup_lt_Some. }
  split_and!.
  - exact Hd1.
  - exists (set_localPath path (set_matched true m)). split; [|done].
    rewrite Hd1. by apply list_lookup_insert_eq.
  - intros k Hk. rewrite Hd1. by apply list_lookup_insert_ne.
  - intros path2 j m2 Hij Hj Hc2 Hbetween.
    assert (Hd2 : mods (checkMatchHash h path2 d1) =
              <[j := set_localPath path2 (set_matched true m2)]> (mods d1)).
    { rewrite (checkMatchHash_first h path2 d1 j m2); [done|].
      rewrite Hd1. by apply first_candidate_after. }
    split; [exact Hd2|].
    exists (set_localPath path (set_matched true m)),
           (set_localPath path2 (set_matched true m2)).
    rewrite Hd2, Hd1. split_and!; try done.
    + rewrite list_lookup_insert_ne by lia. by apply list_lookup_insert_eq.
    + apply list_lookup_insert_eq. rewrite length_insert.
      by eapply lookup_lt_Some.
  - intros path2 Hafter. apply checkMatchHash_none.
    rewrite Hd1. by apply no_candidate_after.
  - intros m'. unfold candidate, equal_ci.
    rewrite andb_true_iff, negb_true_iff, Z.eqb_eq. done.
Qed.

(** C10: one call of [checkMatchHash] changes at most one entry, and only the
    first unmatched entry with the hash; of that entry it keeps the name, the
    hash and the url; when no unmatched entry has the hash the dialog is left
    as it was, no [update] included. *)
Theorem checkMatchHash_frame h path d :
  let d' := checkMatchHash h path d in
  length (mods d') = length (mods d)
  ∧ (∀ j k, mods d' !! j ≠ mods d !! j → mods d' !! k ≠ mods d !! k → j = k)
  ∧ (∀ j, mods d' !! j ≠ mods d !! j → ∃ m, first_candidate h (mods d) j m)
  ∧ (∀ j m m', mods d !! j = Some m → mods d' !! j = Some m' →
       name m' = name m ∧ hash m' = hash m ∧ websiteUrl m' = websiteUrl m)
  ∧ ((∀ m, m ∈ mods d → candidate h m = false) →
       d' = d ∧ events d' = events d)
  ∧ watcher d' = watcher d ∧ hashing_task d' = hashing_task d.
Proof.
  intros d'. destruct (first_candidate_or_none h (mods d)) as [(i & m & Hf)|Hn].
  - assert (Hd' : mods d' = <[i := set_localPath path (set_matched true m)]> (mods d)).
    { unfold d'. by rewrite (checkMatchHash_first _ _ _ _ _ Hf). }
    assert (Hdiff : ∀ j, mods d' !! j ≠ mods d !! j → j = i).
    { intros j Hj. destruct (decide (j = i)); [done|].
      exfalso. apply Hj. rewrite Hd'. by apply list_lookup_insert_ne. }
    split_and!.
    + by rewrite Hd', length_insert.
    + intros j k Hj%Hdiff Hk%Hdiff. congruence.
    + intros j ->%Hdiff. by exists m.
    + intros j m0 m' Hj Hj'. rewrite Hd' in Hj'.
      destruct (decide (j = i)) as [->|Hne].
      * rewrite list_lookup_insert_eq in Hj' by (by eapply lookup_lt_Some).
        destruct Hf as (Hi & _). rewrite Hi in Hj.
        injection Hj as <-. by injection Hj' as <-.
      * rewrite list_lookup_insert_ne in Hj' by done.
        rewrite Hj in Hj'. by injection Hj' as <-.
    + intros Hn. destruct Hf as (Hi & Hc & _).
      rewrite Hn in Hc; [done|]. by eapply list_elem_of_lookup_2.
    + unfold d'. by rewrite (checkMatchHash_first _ _ _ _ _ Hf).
    + unfold d'. by rewrite (checkMatchHash_first _ _ _ _ _ Hf).
  - assert (Hd' : d' = d) by (by apply checkMatchHash_none).
    rewrite Hd'. split_and!; try done.
    intros j m m' Hj Hj'. rewrite Hj in Hj'. by injection Hj' as <-.
Qed.

End CheckMatchHashSpec.

(** ** validateMatchedMods *)

Section ValidateMatchedMods.
Context `{Qt}.
Implicit Types (d : Dialog) (ms : list BlockedMod) (m : BlockedMod).
Implicit Types (fs : FileSystem).

Lemma stale_code_condition fs m :
  stale fs m =
    matched m &&
    (negb (fs_exists fs (localPath m)) || negb (fs_isFile fs (localPath m))).
Proof. unfold stale. by rewrite negb_andb. Qed.

Lemma validateMatchedMods_loop_spec fs ms changed :
  validateMatchedMods_loop fs ms changed =
    (map (revalidated fs) ms, changed || existsb (stale fs) ms).
Proof.
  revert changed. induction ms as [|m ms IH]; intros changed; simpl.
  - by rewrite orb_false_r.
  - unfold revalidated. rewrite (stale_code_condition fs m).
    destruct (matched m); simpl.
    + destruct (negb (fs_exists fs (localPath m)) || negb (fs_isFile fs (localPath m)));
        rewrite IH; simpl; [by rewrite orb_true_r|done].
    + by rewrite IH.
Qed.

Lemma existsb_stale_true fs ms :
  existsb (stale fs) ms = true ↔ ∃ m, m ∈ ms ∧ stale fs m = true.
Proof.
  rewrite existsb_exists. split; intros (m & Hm & Hs); exists m;
    (split; [by apply list_elem_of_In|done]).
Qed.

Lemma existsb_stale_false fs ms :
  existsb (stale fs) ms = false ↔ ∀ m, m ∈ ms → stale fs m = false.
Proof.
  rewrite <- not_true_iff_false, existsb_stale_true. split.
  - intros Hn m Hm. apply not_true_iff_false. intros Hs. apply Hn. eauto.
  - intros Hall (m & Hm & Hs). rewrite Hall in Hs; done.
Qed.

Lemma map_revalidated_id fs ms :
  (∀ m, m ∈ ms → stale fs m = false) → map (revalidated fs) ms = ms.
Proof.
  induction ms as [|m ms IH]; intros Hall; [done|]. simpl.
  unfold revalidated at 1. rewrite (Hall m) by left.
  rewrite IH; [done|]. intros m' Hm'. apply Hall. by right.
Qed.

Lemma validateMatchedMods_unfold fs d :
  validateMatchedMods fs d =
    if existsb (stale fs) (mods d)
    then update (set_mods (map (revalidated fs) (mods d)) d)
    else set_mods (map (revalidated fs) (mods d)) d.
Proof. unfold validateMatchedMods. by rewrite validateMatchedMods_loop_spec. Qed.

Lemma mods_validateMatchedMods fs d :
  mods (validateMatchedMods fs d) = map (revalidated fs) (mods d).
Proof.
  rewrite validateMatchedMods_unfold. by destruct (existsb (stale fs) (mods d)).
Qed.

Lemma revalidated_not_stale fs m : stale fs (revalidated fs m) = false.
Proof. unfold revalidated. destruct (stale fs m) eqn:Hs; [done|exact Hs]. Qed.

(** C2: [validateMatchedMods] resets ([matched = false], [localPath = ""])
    exactly the entries that are matched and whose local path is no longer an
    existing regular file, leaves every other entry as it is, and calls
    [update] if and only if it reset at least one entry. *)
Theorem validateMatchedMods_resets_stale fs d :
  let d' := validateMatchedMods fs d in
  mods d' = map (revalidated fs) (mods d)
  ∧ (∀ i m, mods d !! i = Some m →
       mods d' !! i =
         Some (if matched m &&
                  negb (fs_exists fs (localPath m) && fs_isFile fs (localPath m))
               then {| name := name m; websiteUrl := websiteUrl m;
                       hash := hash m; matched := false; localPath := "" |}
               else m))
  ∧ (∀ i m, mods d !! i = Some m → matched m = true →
       fs_exists fs (localPath m) && fs_isFile fs (localPath m) = false →
       ∃ m', mods d' !! i = Some m' ∧ matched m' = false ∧ localPath m' = "")
  ∧ (events d' = events d ++ [Updated] ↔ ∃ m, m ∈ mods d ∧ stale fs m = true)
  ∧ (events d' = events d ↔ ∀ m, m ∈ mods d → stale fs m = false)
  ∧ ((∀ m, m ∈ mods d → stale fs m = false) → d' = d)
  ∧ watcher d' = watcher d ∧ hashing_task d' = hashing_task d.
Proof.
  intros d'.
  assert (Hmods : mods d' = map (revalidated fs) (mods d))
    by apply mods_validateMatchedMods.
  assert (Hne : events d ++ [Updated] ≠ events d).
  { intros Heq. apply (f_equal length) in Heq. rewrite length_app in Heq.
    simpl in Heq. lia. }
  split_and!; [done| | | | | | |].
  - intros i m Hi. rewrite Hmods, list_lookup_fmap, Hi. done.
  - intros i m Hi Hm Hgone. exists (set_matched false (set_localPath "" m)).
    split; [|done]. rewrite Hmods, list_lookup_fmap, Hi. simpl.
    unfold revalidated, stale. by rewrite Hm, Hgone.
  - unfold d'. rewrite validateMatchedMods_unfold, <- existsb_stale_true.
    destruct (existsb (stale fs) (mods d)); simpl; [done|].
    split; [intros Heq; by destruct Hne|done].
  - unfold d'. rewrite validateMatchedMods_unfold, <- existsb_stale_false.
    destruct (existsb (stale fs) (mods d)); simpl; [|done].
    split; [intros Heq; by destruct Hne|done].
  - intros Hall. unfold d'. rewrite validateMatchedMods_unfold.
    rewrite (proj2 (existsb_stale_false fs (mods d)) Hall).
    rewrite map_revalidated_id by done. by destruct d.
  - unfold d'. rewrite validateMatchedMods_unfold.
    by destruct (existsb (stale fs) (mods d)).
  - unfold d'. rewrite validateMatchedMods_unfold.
    by destruct (existsb (stale fs) (mods d)).
Qed.

End ValidateMatchedMods.

(** ** scanPath, directoryChanged and dropEvent *)

Section Scanning.
Context `{Qt}.
Implicit Types (d : Dialog) (ms : list BlockedMod) (m : BlockedMod).
Implicit Types (fs : FileSystem) (path file : string) (files : list string).

Lemma checkValidPath_loop_spec filename ms :
  checkValidPath_loop filename ms = true ↔
  ∃ m, m ∈ ms ∧ equal_ci (name m) filename = true.
Proof.
  induction ms as [|m ms IH]; simpl.
  - split; [done|]. intros (m & Hm & _). by apply elem_of_nil in Hm.
  - destruct (equal_ci (name m) filename) eqn:He.
    + split; [|done]. intros _. exists m. split; [left|done].
    + rewrite IH. split.
      * intros (m' & Hm' & He'). exists m'. split; [by right|done].
      * intros (m' & [->|Hm']%elem_of_cons & He'); [congruence|eauto].
Qed.

Lemma checkValidPath_spec file d :
  checkValidPath file d = true ↔ ∃ m, m ∈ mods d ∧ names m file = true.
Proof. apply checkValidPath_loop_spec. Qed.

Lemma checkValidPath_mods file d d' :
  mods d' = mods d → checkValidPath file d' = checkValidPath file d.
Proof. unfold checkValidPath. by intros ->. Qed.

Lemma relevant_files_mods d d' files :
  mods d' = mods d → relevant_files d' files = relevant_files d files.
Proof.
  intros Hm. unfold relevant_files. apply filter_ext.
  intros file. by apply checkValidPath_mods.
Qed.

Lemma with_hash_tasks_nil d : with_hash_tasks [] d = d.
Proof.
  destruct d as [ms w [n k q dg dn st] u ev]. unfold with_hash_tasks; simpl.
  by rewrite !app_nil_r.
Qed.

Lemma with_hash_tasks_cons p paths d :
  with_hash_tasks paths (addHashTask p d) = with_hash_tasks (p :: paths) d.
Proof.
  unfold with_hash_tasks, addHashTask; simpl. by rewrite <- !app_assoc.
Qed.

Lemma scanPath_loop_spec files d :
  scanPath_loop files d = with_hash_tasks (relevant_files d files) d.
Proof.
  revert d. induction files as [|file files IH]; intros d; simpl.
  - by rewrite with_hash_tasks_nil.
  - unfold relevant_files; simpl. destruct (checkValidPath file d); simpl.
    + rewrite IH, (relevant_files_mods d (addHashTask file d)) by done.
      apply with_hash_tasks_cons.
    + apply IH.
Qed.

Lemma dropEvent_loop_spec (urls : list QUrl) d :
  fold_left (λ d url, addHashTask (QUrl_toLocalFile url) d) urls d =
    with_hash_tasks (map QUrl_toLocalFile urls) d.
Proof.
  revert d. induction urls as [|u urls IH]; intros d; simpl.
  - by rewrite with_hash_tasks_nil.
  - rewrite IH. apply with_hash_tasks_cons.
Qed.

Lemma elem_of_relevant_files d files file :
  file ∈ relevant_files d files ↔
  file ∈ files ∧ ∃ m, m ∈ mods d ∧ names m file = true.
Proof.
  unfold relevant_files.
  rewrite <- checkValidPath_spec, !list_elem_of_In. apply filter_In.
Qed.

(** C3: a scan of a directory hands to the hashing pool the listed files
    whose file name is the name of some entry, compared case-insensitively,
    and no other file; each in the order of the listing. *)
Theorem scanPath_submits_named_files fs path d :
  let d' := scanPath fs path d in
  let added := relevant_files d (fs_files fs path) in
  m_queue (hashing_task d') = m_queue (hashing_task d) ++ map hasher_of added
  ∧ events d' = events d ++ map HashTaskAdded added ++ [HashingStarted]
  ∧ (∀ file, file ∈ added ↔
       file ∈ fs_files fs path ∧
       ∃ m, m ∈ mods d ∧
            QString_compare (name m) (QFileInfo_fileName file)
                            CaseInsensitive = 0%Z)
  ∧ (∀ file, (∀ m, m ∈ mods d →
                   QString_compare (name m) (QFileInfo_fileName file)
                                   CaseInsensitive ≠ 0%Z) →
       (file ∉ added) ∧ (hasher_of file ∉ map hasher_of added))
  ∧ (∀ file, hasher_of file ∈ map hasher_of added ↔ file ∈ added)
  ∧ mods d' = mods d.
Proof.
  intros d' added. unfold d', scanPath. rewrite scanPath_loop_spec.
  fold added.
  assert (Hin : ∀ file, file ∈ added ↔
            file ∈ fs_files fs path ∧
            ∃ m, m ∈ mods d ∧
                 QString_compare (name m) (QFileInfo_fileName file)
                                 CaseInsensitive = 0%Z).
  { intros file. unfold added. rewrite elem_of_relevant_files.
    unfold names, equal_ci. by setoid_rewrite Z.eqb_eq. }
  assert (Hinj : ∀ file, hasher_of file ∈ map hasher_of added ↔ file ∈ added).
  { intros file. split; [|apply list_elem_of_fmap_2].
    intros (f & Hf & Hm)%list_elem_of_fmap_1. by injection Hf as ->. }
  split_and!.
  - done.
  - simpl. by rewrite <- app_assoc.
  - exact Hin.
  - intros file Hno.
    assert (Hnot : file ∉ added).
    { intros (_ & m & Hm & Hn)%Hin. by apply (Hno m). }
    split; [done|]. by rewrite Hinj.
  - exact Hinj.
  - done.
Qed.

(** Entries that are matched are not touched by [checkMatchHash]. *)
Lemma checkMatchHash_keeps_matched h p d i m :
  mods d !! i = Some m → matched m = true →
  mods (checkMatchHash h p d) !! i = Some m.
Proof.
  intros Hi Hm.
  destruct (first_candidate_or_none h (mods d)) as [(j & m' & Hf)|Hn].
  - rewrite (checkMatchHash_first _ _ _ _ _ Hf). simpl.
    destruct Hf as (Hj & Hc & _).
    rewrite list_lookup_insert_ne; [done|]. intros ->.
    rewrite Hi in Hj. injection Hj as <-.
    unfold candidate in Hc. by rewrite Hm in Hc.
  - by rewrite checkMatchHash_none.
Qed.

End Scanning.

Section ScanningSpec.
Context `{Qt}.
Implicit Types (d : Dialog) (ms : list BlockedMod) (m : BlockedMod).
Implicit Types (fs : FileSystem) (path file : string) (files : list string).

(** C4, as the code has it: a scan adds a hash task for every listed file
    whose name is the name of an entry, whatever the [matched] flag of that
    entry and of the other entries of that name: the name check does not
    read [matched].  It is [checkMatchHash], run on the result of the task,
    that leaves every matched entry as it is. *)
Theorem scanPath_hashes_matched_names fs path d file m :
  file ∈ fs_files fs path →
  m ∈ mods d → names m file = true →
  let d' := scanPath fs path d in
  hasher_of file ∈
    drop (length (m_queue (hashing_task d))) (m_queue (hashing_task d'))
  ∧ HashTaskAdded file ∈ drop (length (events d)) (events d')
  ∧ ∀ result i m', mods d !! i = Some m' → matched m' = true →
      mods (hash_succeeded result (hasher_of file) d') !! i = Some m'.
Proof.
  intros Hfile Hm Hn d'.
  assert (Hrel : file ∈ relevant_files d (fs_files fs path)).
  { apply elem_of_relevant_files. eauto. }
  unfold d', scanPath. rewrite scanPath_loop_spec. simpl. split_and!.
  - rewrite drop_app_length. by apply list_elem_of_fmap_2.
  - rewrite <- app_assoc, drop_app_length.
    apply elem_of_app. left. by apply list_elem_of_fmap_2.
  - intros result i m' Hi Hm'. unfold hash_succeeded.
    by apply checkMatchHash_keeps_matched.
Qed.

(** C5: [directoryChanged] is [validateMatchedMods] followed by [scanPath]:
    the mods it leaves are the revalidated ones, none of them stale, and
    everything the scan does (the hash tasks, the start of the pool) comes
    after everything the revalidation did, on the revalidated mods. *)
Theorem directoryChanged_revalidates_then_scans fs path d :
  let d1 := validateMatchedMods fs d in
  let d2 := directoryChanged fs path d in
  d2 = scanPath fs path d1
  ∧ mods d2 = mods d1
  ∧ mods d2 = map (revalidated fs) (mods d)
  ∧ (∀ m, m ∈ mods d2 → stale fs m = false)
  ∧ (∃ rechecked, (rechecked = [] ∨ rechecked = [Updated]) ∧
       events d1 = events d ++ rechecked ∧
       events d2 =
         (events d ++ rechecked) ++
         map HashTaskAdded (relevant_files d1 (fs_files fs path)) ++
         [HashingStarted]).
Proof.
  intros d1 d2.
  assert (Hd2 : d2 = scanPath fs path d1) by done.
  assert (Hmods : mods d2 = mods d1).
  { rewrite Hd2. unfold scanPath. by rewrite scanPath_loop_spec. }
  assert (Hd1 : mods d1 = map (revalidated fs) (mods d))
    by apply mods_validateMatchedMods.
  split_and!; [done|done|congruence| |].
  - intros m. rewrite Hmods, Hd1. intros (m0 & -> & _)%list_elem_of_fmap_1.
    apply revalidated_not_stale.
  - exists (if existsb (stale fs) (mods d) then [Updated] else []).
    assert (Hev : events d1 =
              events d ++ (if existsb (stale fs) (mods d) then [Updated] else [])).
    { unfold d1. rewrite validateMatchedMods_unfold.
      destruct (existsb (stale fs) (mods d)); simpl; [done|by rewrite app_nil_r]. }
    split_and!.
    + destruct (existsb (stale fs) (mods d)); auto.
    + done.
    + rewrite Hd2, <- Hev. unfold scanPath. rewrite scanPath_loop_spec.
      simpl. by rewrite <- app_assoc.
Qed.

(** C6: [dropEvent] hands every dropped path to the hashing pool, in order
    and without any check: the name check is not applied (a path that
    [checkValidPath] rejects is hashed all the same) and no directory is
    listed (the handler does not read the disk). *)
Theorem dropEvent_hashes_every_path (urls : list QUrl) d :
  let d' := dropEvent urls d in
  let paths := map QUrl_toLocalFile urls in
  m_queue (hashing_task d') = m_queue (hashing_task d) ++ map hasher_of paths
  ∧ events d' = events d ++ map HashTaskAdded paths ++ [HashingStarted]
  ∧ (∀ url, url ∈ urls → checkValidPath (QUrl_toLocalFile url) d = false →
       hasher_of (QUrl_toLocalFile url) ∈
         drop (length (m_queue (hashing_task d))) (m_queue (hashing_task d')))
  ∧ length (m_queue (hashing_task d')) =
      length (m_queue (hashing_task d)) + length urls
  ∧ m_started (hashing_task d') = true
  ∧ mods d' = mods d.
Proof.
  intros d' paths. unfold d', dropEvent. rewrite dropEvent_loop_spec.
  fold paths. simpl. split_and!; try done.
  - by rewrite <- app_assoc.
  - intros url Hurl _. rewrite drop_app_length.
    apply list_elem_of_fmap_2. by apply list_elem_of_fmap_2.
  - unfold paths. by rewrite length_app, !length_map.
Qed.

Lemma all_of_Forall {A} (p : A → bool) (l : list A) :
  all_of p l = true ↔ ∀ x, x ∈ l → p x = true.
Proof.
  induction l as [|x l IH]; simpl.
  - split; [|done]. intros _ x Hx. by apply elem_of_nil in Hx.
  - destruct (p x) eqn:Hp.
    + rewrite IH. split.
      * intros Hall y [->|Hy]%elem_of_cons; auto.
      * intros Hall y Hy. apply Hall. by right.
    + split; [done|]. intros Hall. rewrite <- Hp. apply Hall. left.
Qed.

(** C7: [allModsMatched] is true exactly when every entry of the list has
    [matched = true]; on the empty list it is true. *)
Theorem allModsMatched_iff d :
  (allModsMatched d = true ↔ ∀ m, m ∈ mods d → matched m = true)
  ∧ (allModsMatched d = false ↔ ∃ m, m ∈ mods d ∧ matched m = false)
  ∧ allModsMatched (set_mods [] d) = true.
Proof.
  unfold allModsMatched. split_and!; [apply all_of_Forall| |done].
  rewrite <- not_true_iff_false, all_of_Forall. split.
  - intros Hn. induction (mods d) as [|m ms IH].
    + destruct Hn. intros m Hm. by apply elem_of_nil in Hm.
    + destruct (matched m) eqn:Hm.
      * destruct IH as (m' & Hm' & Hf).
        { intros Hall. apply Hn. intros y [->|Hy]%elem_of_cons; auto. }
        exists m'. split; [by right|done].
      * exists m. split; [left|done].
  - intros (m & Hm & Hf) Hall. rewrite Hall in Hf; done.
Qed.

End ScanningSpec.

(** ** The invariant: matched if and only if the local path is not empty *)

Section PathInvariant.
Context `{Qt}.
Implicit Types (d : Dialog) (ms : list BlockedMod) (m : BlockedMod).

Lemma unmatched_entry_invariant m : unmatched_entry m → path_invariant m.
Proof. intros [Hm Hp]. unfold path_invariant. rewrite Hm, Hp. split; done. Qed.

Lemma path_invariant_taken path m :
  path ≠ "" → path_invariant (set_localPath path (set_matched true m)).
Proof. intros Hp. unfold path_invariant; simpl. split; done. Qed.

Lemma path_invariant_revalidated fs m :
  path_invariant m → path_invariant (revalidated fs m).
Proof.
  intros Hinv. unfold revalidated. destruct (stale fs m); [|done].
  unfold path_invariant; simpl. split; done.
Qed.

Lemma path_invariant_checkMatchHash h path d :
  path ≠ "" →
  Forall path_invariant (mods d) →
  Forall path_invariant (mods (checkMatchHash h path d)).
Proof.
  intros Hp Hinv.
  destruct (first_candidate_or_none h (mods d)) as [(i & m & Hf)|Hn].
  - rewrite (checkMatchHash_first _ _ _ _ _ Hf). simpl.
    apply Forall_insert; [done|]. by apply path_invariant_taken.
  - by rewrite checkMatchHash_none.
Qed.

Lemma path_invariant_validateMatchedMods fs d :
  Forall path_invariant (mods d) →
  Forall path_invariant (mods (validateMatchedMods fs d)).
Proof.
  intros Hinv. rewrite mods_validateMatchedMods. apply Forall_fmap.
  eapply Forall_impl; [exact Hinv|]. intros m. apply path_invariant_revalidated.
Qed.

Lemma watcher_addPath_keeps fs dir d :
  mods (watcher_addPath fs dir d) = mods d
  ∧ ui (watcher_addPath fs dir d) = ui d
  ∧ hashing_task (watcher_addPath fs dir d) = hashing_task d
  ∧ events (watcher_addPath fs dir d) = events d.
Proof.
  unfold watcher_addPath.
  by destruct (fs_exists fs dir && fs_isDir fs dir
               && negb (bool_decide (dir ∈ watcher d))).
Qed.

Lemma mods_watcher_addPath fs dir d : mods (watcher_addPath fs dir d) = mods d.
Proof. apply watcher_addPath_keeps. Qed.

Lemma hashing_task_watcher_addPath fs dir d :
  hashing_task (watcher_addPath fs dir d) = hashing_task d.
Proof. apply watcher_addPath_keeps. Qed.

Lemma mods_scanPath fs path d : mods (scanPath fs path d) = mods d.
Proof. unfold scanPath. by rewrite scanPath_loop_spec. Qed.

Lemma mods_dropEvent (urls : list QUrl) d : mods (dropEvent urls d) = mods d.
Proof. unfold dropEvent. by rewrite dropEvent_loop_spec. Qed.

Lemma path_invariant_perform a d :
  nonempty_path a →
  Forall path_invariant (mods d) →
  Forall path_invariant (mods (perform a d)).
Proof.
  destruct a; unfold perform, nonempty_path; intros Hp Hinv.
  - by apply path_invariant_checkMatchHash.
  - by apply path_invariant_validateMatchedMods.
  - unfold directoryChanged. cbv zeta. rewrite mods_scanPath.
    by apply path_invariant_validateMatchedMods.
  - by rewrite mods_scanPath.
  - unfold addDownloadFolder. by rewrite mods_scanPath, mods_watcher_addPath.
  - by rewrite mods_dropEvent.
  - done.
Qed.

(** C8: every entry is matched exactly when its local path is not empty.
    This holds when every entry is unmatched with an empty path, a call of
    [checkMatchHash] with a path that is not empty keeps it, a call of
    [validateMatchedMods] keeps it, and so it holds after any run of the
    dialog's operations from such a start. *)
Theorem path_invariant_preserved :
  (∀ ms, Forall unmatched_entry ms → Forall path_invariant ms)
  ∧ (∀ d h path, path ≠ "" → Forall path_invariant (mods d) →
       Forall path_invariant (mods (checkMatchHash h path d)))
  ∧ (∀ d fs, Forall path_invariant (mods d) →
       Forall path_invariant (mods (validateMatchedMods fs d)))
  ∧ (∀ d actions,
       Forall unmatched_entry (mods d) → Forall nonempty_path actions →
       ∀ m, m ∈ mods (perform_all actions d) →
            (matched m = true ↔ localPath m ≠ "")).
Proof.
  split_and!.
  - intros ms Hms. eapply Forall_impl; [exact Hms|].
    intros m. apply unmatched_entry_invariant.
  - intros d h path. apply path_invariant_checkMatchHash.
  - intros d fs. apply path_invariant_validateMatchedMods.
  - intros d actions Hstart Hactions.
    assert (Hinv : Forall path_invariant (mods d)).
    { eapply Forall_impl; [exact Hstart|]. apply unmatched_entry_invariant. }
    clear Hstart. apply Forall_forall. unfold perform_all.
    revert d Hinv. induction Hactions as [|a actions Ha _ IH]; intros d Hinv;
      simpl; [done|].
    apply IH. by apply path_invariant_perform.
Qed.

End PathInvariant.

(** ** The pool of hash tasks *)

Section Pool.
Implicit Types (c : ConcurrentTask) (t : Hasher).

Lemma pool_step_pending_work c c' :
  pool_step c c' → S (pending_work c') = pending_work c.
Proof.
  intros [c0 t q Hs Hq Hlt|c0 l1 t l2 Hd]; unfold pending_work; simpl.
  - rewrite Hq, length_app. simpl. lia.
  - rewrite Hd, !length_app. simpl. lia.
Qed.

Lemma pool_step_max_size c c' :
  pool_step c c' → m_total_max_size c' = m_total_max_size c.
Proof. by intros []. Qed.

Lemma pool_step_started c c' :
  pool_step c c' → m_started c = true → m_started c' = true.
Proof. by intros []. Qed.

Lemma pool_step_bound c c' :
  pool_step c c' →
  length (m_doing c) ≤ m_total_max_size c →
  length (m_doing c') ≤ m_total_max_size c'.
Proof.
  intros [c0 t q Hs Hq Hlt|c0 l1 t l2 Hd]; simpl; intros Hle.
  - rewrite length_app. simpl. lia.
  - rewrite Hd in Hle. rewrite length_app in *. simpl in Hle. lia.
Qed.

Lemma pool_step_full_keeps_queue c c' :
  pool_step c c' → length (m_doing c) = m_total_max_size c →
  m_queue c' = m_queue c ∧ length (m_doing c') < length (m_doing c).
Proof.
  intros [c0 t q Hs Hq Hlt|c0 l1 t l2 Hd]; simpl; intros Hfull; [lia|].
  split; [done|]. rewrite Hd, !length_app. simpl. lia.
Qed.

Lemma pool_step_accepted c c' : pool_step c c' → accepted c' ≡ₚ accepted c.
Proof.
  intros [c0 t q Hs Hq Hlt|c0 l1 t l2 Hd]; unfold accepted; simpl.
  - rewrite Hq. solve_Permutation.
  - rewrite Hd. solve_Permutation.
Qed.

Lemma pool_progress c :
  m_started c = true → 0 < m_total_max_size c → ¬ pool_idle c →
  ∃ c', pool_step c c'.
Proof.
  intros Hs Hk Hbusy.
  destruct (m_doing c) as [|t l] eqn:Hd.
  - destruct (m_queue c) as [|t q] eqn:Hq; [by destruct Hbusy|].
    eexists. eapply (pool_dispatch c t q); [done..|]. rewrite Hd. simpl. lia.
  - eexists. by eapply (pool_finish c [] t l).
Qed.

Lemma pool_steps_pending_work n c c' :
  pool_steps n c c' → n + pending_work c' = pending_work c.
Proof.
  induction 1 as [|n c c' c'' Hstep _ IH]; [done|].
  apply pool_step_pending_work in Hstep. lia.
Qed.

Lemma pool_steps_accepted n c c' : pool_steps n c c' → accepted c' ≡ₚ accepted c.
Proof.
  induction 1 as [|n c c' c'' Hstep _ IH]; [done|].
  rewrite IH. by apply pool_step_accepted.
Qed.

Lemma pool_idle_done c : pool_idle c → m_done c = accepted c.
Proof. intros [Hq Hd]. unfold accepted. by rewrite Hq, Hd. Qed.

(** A started pool with room for at least one task can always be run until
    it is idle. *)
Lemma pool_completes c :
  m_started c = true → 0 < m_total_max_size c →
  ∃ c', pool_steps (pending_work c) c c' ∧ pool_idle c'.
Proof.
  remember (pending_work c) as w eqn:Hw. revert c Hw.
  induction w as [|w IH]; intros c Hw Hs Hk.
  - exists c. split; [constructor|]. unfold pending_work in Hw.
    split; apply length_zero_iff_nil; lia.
  - destruct (pool_progress c Hs Hk) as [c1 Hstep].
    { intros [Hq Hd]. unfold pending_work in Hw. rewrite Hq, Hd in Hw. done. }
    destruct (IH c1) as (c' & Hsteps & Hidle).
    + apply pool_step_pending_work in Hstep. lia.
    + by eapply pool_step_started.
    + by rewrite (pool_step_max_size _ _ Hstep).
    + exists c'. split; [by econstructor|done].
Qed.

Lemma pool_no_step_when_empty c c' : accepted c = [] → ¬ pool_step c c'.
Proof.
  unfold accepted. intros Hacc Hstep.
  apply app_eq_nil in Hacc as [Hq [Hd _]%app_eq_nil].
  destruct Hstep as [c0 t q _ Hq' _|c0 l1 t l2 Hd']; [congruence|].
  rewrite Hd in Hd'. by destruct l1.
Qed.

Lemma pool_ready_new : pool_ready (ConcurrentTask_new "MakeHashesTask" 10).
Proof. unfold pool_ready; simpl. split_and!; [done|lia|by left]. Qed.

Lemma pool_ready_step c c' : pool_ready c → pool_step c c' → pool_ready c'.
Proof.
  intros (Hk & Hle & Hs) Hstep. split_and!.
  - by rewrite (pool_step_max_size _ _ Hstep).
  - rewrite <- Hk, <- (pool_step_max_size _ _ Hstep).
    apply (pool_step_bound _ _ Hstep). by rewrite Hk.
  - destruct Hs as [Hempty|Hs].
    + by destruct (pool_no_step_when_empty c c').
    + right. by eapply pool_step_started.
Qed.

Lemma pool_ready_steps n c c' : pool_ready c → pool_steps n c c' → pool_ready c'.
Proof. intros Hr Hsteps. induction Hsteps; eauto using pool_ready_step. Qed.

(** A handler that adds hash tasks and starts the pool leaves it ready. *)
Lemma pool_ready_started_with_tasks paths d :
  pool_ready (hashing_task d) →
  pool_ready (hashing_task (hashing_task_start (with_hash_tasks paths d))).
Proof. intros (Hk & Hle & _). unfold pool_ready; simpl. auto. Qed.

Lemma pool_ready_scanPath `{Qt} fs path d :
  pool_ready (hashing_task d) → pool_ready (hashing_task (scanPath fs path d)).
Proof.
  unfold scanPath. rewrite scanPath_loop_spec.
  apply pool_ready_started_with_tasks.
Qed.

Lemma pool_ready_scanPaths `{Qt} fs dirs d :
  pool_ready (hashing_task d) →
  pool_ready (hashing_task (fold_left (λ d dir, scanPath fs dir d) dirs d)).
Proof.
  revert d. induction dirs as [|dir dirs IH]; intros d Hr; simpl; [done|].
  by apply IH, pool_ready_scanPath.
Qed.

Lemma hashing_task_checkMatchHash `{Qt} h path d :
  hashing_task (checkMatchHash h path d) = hashing_task d.
Proof.
  destruct (first_candidate_or_none h (mods d)) as [(i & m & Hf)|Hn].
  - by rewrite (checkMatchHash_first _ _ _ _ _ Hf).
  - by rewrite checkMatchHash_none.
Qed.

Lemma hashing_task_validateMatchedMods `{Qt} fs d :
  hashing_task (validateMatchedMods fs d) = hashing_task d.
Proof.
  rewrite validateMatchedMods_unfold. by destruct (existsb (stale fs) (mods d)).
Qed.

(** The pool of a reachable dialog is the one the constructor made, with room
    for ten tasks, and every handler that gave it a task has started it. *)
Lemma dialog_reachable_pool_ready `{Qt} d :
  dialog_reachable d → pool_ready (hashing_task d).
Proof.
  induction 1 as [fs dl mf ms|a d Hd IH|d c' Hd IH Hstep].
  - unfold BlockedModsDialog_new, scanPaths. cbv zeta.
    change (hashing_task (update ?x)) with (hashing_task x).
    apply pool_ready_scanPaths. unfold setupWatch.
    rewrite !hashing_task_watcher_addPath. apply pool_ready_new.
  - destruct a; unfold perform.
    + by rewrite hashing_task_checkMatchHash.
    + by rewrite hashing_task_validateMatchedMods.
    + unfold directoryChanged. cbv zeta. apply pool_ready_scanPath.
      by rewrite hashing_task_validateMatchedMods.
    + by apply pool_ready_scanPath.
    + unfold addDownloadFolder. apply pool_ready_scanPath.
      by rewrite hashing_task_watcher_addPath.
    + unfold dropEvent. rewrite dropEvent_loop_spec.
      by apply pool_ready_started_with_tasks.
    + done.
  - simpl. by eapply pool_ready_step.
Qed.

(** A ready pool that cannot step is idle. *)
Lemma pool_ready_stuck_idle c :
  pool_ready c → (∀ c', ¬ pool_step c c') → pool_idle c.
Proof.
  intros (Hk & _ & [Hempty|Hs]) Hstuck.
  - unfold accepted in Hempty.
    apply app_eq_nil in Hempty as [Hq [Hd _]%app_eq_nil]. by split.
  - destruct (m_queue c) as [|t q] eqn:Hq; [destruct (m_doing c) as [|t l] eqn:Hd|].
    + by split.
    + destruct (pool_progress c) as [c' Hstep]; [done|lia| |by destruct (Hstuck c')].
      intros [_ Hd']. congruence.
    + destruct (pool_progress c) as [c' Hstep]; [done|lia| |by destruct (Hstuck c')].
      intros [Hq' _]. congruence.
Qed.

Lemma pool_ready_completes c :
  pool_ready c → ∃ c', pool_steps (pending_work c) c c' ∧ pool_idle c'.
Proof.
  intros (Hk & _ & [Hempty|Hs]).
  - unfold accepted in Hempty.
    apply app_eq_nil in Hempty as [Hq [Hd _]%app_eq_nil].
    exists c. unfold pending_work. rewrite Hq, Hd. split; [constructor|by split].
  - apply pool_completes; [done|lia].
Qed.

Lemma dispatch_next_step c t q :
  m_started c = true → m_queue c = t :: q →
  length (m_doing c) < m_total_max_size c →
  pool_step c (dispatch_next c).
Proof.
  intros Hs Hq Hlt. unfold dispatch_next. rewrite Hq. by apply pool_dispatch.
Qed.

Lemma dialog_reachable_dispatch `{Qt} d :
  dialog_reachable d →
  m_started (hashing_task d) = true →
  m_queue (hashing_task d) ≠ [] →
  length (m_doing (hashing_task d)) < 10 →
  dialog_reachable (set_hashing_task (dispatch_next (hashing_task d)) d).
Proof.
  intros Hreach Hs Hq Hlt. apply reachable_pool_step; [done|].
  destruct (m_queue (hashing_task d)) as [|t q] eqn:Hqueue; [done|].
  apply (dispatch_next_step _ t q); [done..|].
  by destruct (dialog_reachable_pool_ready d Hreach) as (-> & _).
Qed.

(** C9: the pool of hash tasks of the dialog never runs more than ten tasks
    at a time; while ten run, a step of the pool leaves the queue as it is
    (the queued tasks wait for a slot); and every accepted task ends: the
    pool cannot step more often than it has work pending, when it cannot step
    any more nothing is queued or running and all it accepted is done, and it
    can always be run to that point. *)
Theorem hashing_pool_bounded_and_complete `{Qt} d :
  dialog_reachable d →
  let c := hashing_task d in
  length (m_doing c) ≤ 10
  ∧ (∀ c', pool_step c c' → length (m_doing c) = 10 →
       m_queue c' = m_queue c ∧ length (m_doing c') < 10)
  ∧ (∀ n c', pool_steps n c c' →
       n ≤ pending_work c ∧ length (m_doing c') ≤ 10)
  ∧ (∀ n c', pool_steps n c c' → (∀ c'', ¬ pool_step c' c'') →
       pool_idle c' ∧ m_done c' ≡ₚ accepted c)
  ∧ (∃ c', pool_steps (pending_work c) c c' ∧ pool_idle c' ∧
           m_done c' ≡ₚ accepted c).
Proof.
  intros Hreach c.
  assert (Hready : pool_ready c) by by apply dialog_reachable_pool_ready.
  pose proof Hready as (Hk & Hle & _). split_and!.
  - done.
  - intros c' Hstep Hfull.
    destruct (pool_step_full_keeps_queue c c' Hstep) as [Hq Hlt]; [lia|].
    split; [done|lia].
  - intros n c' Hsteps. split.
    + apply pool_steps_pending_work in Hsteps. lia.
    + by destruct (pool_ready_steps _ _ _ Hready Hsteps) as (_ & ? & _).
  - intros n c' Hsteps Hstuck.
    assert (Hidle : pool_idle c').
    { apply pool_ready_stuck_idle; [by eapply pool_ready_steps|done]. }
    split; [done|]. rewrite (pool_idle_done _ Hidle).
    by eapply pool_steps_accepted.
  - destruct (pool_ready_completes c Hready) as (c' & Hsteps & Hidle).
    exists c'. split_and!; [done..|]. rewrite (pool_idle_done _ Hidle).
    by eapply pool_steps_accepted.
Qed.

End Pool.

(** ** The scenarios, run on the ASCII implementation of Qt *)

Section Scenarios.
Import Scenario.
#[local] Existing Instance AsciiQt.qt.

(** One entry, a file of its name and of its hash in a watched directory:
    the constructor queues the file, its hash confirms the entry. *)
Example scenario_match :
  let d := BlockedModsDialog_new (disk ["/dl/Foo.jar"]) "/dl" "/mods" [foo] in
  m_queue (hashing_task d) = [hasher_of "/dl/Foo.jar"]
  ∧ mods (hash_succeeded "abc123" (hasher_of "/dl/Foo.jar") d) = [foo_matched]
  ∧ allModsMatched (hash_succeeded "abc123" (hasher_of "/dl/Foo.jar") d) = true.
Proof. split_and!; reflexivity. Qed.

(** The name is right, the content is not: the entry stays unmatched. *)
Example scenario_wrong_content :
  let d := BlockedModsDialog_new (disk ["/dl/Foo.jar"]) "/dl" "/mods" [foo] in
  hash_succeeded "zzz999" (hasher_of "/dl/Foo.jar") d = d.
Proof. reflexivity. Qed.

(** The matched file is deleted and its directory reports a change. *)
Example scenario_deleted :
  let d := directoryChanged (disk []) "/dl" (dialog_of [foo_matched]) in
  mods d = [foo] ∧ events d = [Updated; HashingStarted].
Proof. split; reflexivity. Qed.

(** Two entries with one hash, three files with that hash: the first
    result takes the first entry, the second the second, the third none. *)
Example scenario_duplicate_hash :
  let d0 := dialog_of [dup_a; dup_b] in
  let d1 := checkMatchHash "dup1" "/dl/one.jar" d0 in
  let d2 := checkMatchHash "DUP1" "/dl/two.jar" d1 in
  let d3 := checkMatchHash "dup1" "/dl/three.jar" d2 in
  mods d1 = [set_localPath "/dl/one.jar" (set_matched true dup_a); dup_b]
  ∧ mods d2 = [set_localPath "/dl/one.jar" (set_matched true dup_a);
               set_localPath "/dl/two.jar" (set_matched true dup_b)]
  ∧ d3 = d2.
Proof. split_and!; reflexivity. Qed.

(** A file that is dropped is hashed whatever its name, a file that is
    listed is hashed only under the name of an entry. *)
Example scenario_drop_and_scan :
  let d0 := dialog_of [foo] in
  m_queue (hashing_task
             (dropEvent [AsciiQt.LocalFile "/tmp/other.bin"] d0)) =
    [hasher_of "/tmp/other.bin"]
  ∧ m_queue (hashing_task
               (scanPath (disk ["/dl/other.bin"; "/dl/FOO.JAR"]) "/dl" d0)) =
      [hasher_of "/dl/FOO.JAR"].
Proof. split; reflexivity. Qed.

Lemma checkMatchHash_first_unmatched_witness :
  let d := dialog_of [dup_a; dup_b] in
  let taken_a :=
    {| name := "A.jar"; websiteUrl := "https://mods.example/a";
       hash := "dup1"; matched := true; localPath := "/dl/one.jar" |} in
  let taken_b :=
    {| name := "B.jar"; websiteUrl := "https://mods.example/b";
       hash := "dup1"; matched := true; localPath := "/dl/two.jar" |} in
  first_candidate "DUP1" (mods d) 0 dup_a
  ∧ mods (checkMatchHash "DUP1" "/dl/one.jar" d) = [taken_a; dup_b]
  ∧ mods (checkMatchHash "DUP1" "/dl/two.jar"
            (checkMatchHash "DUP1" "/dl/one.jar" d)) = [taken_a; taken_b].
Proof.
  intros d taken_a taken_b.
  assert (Hf : first_candidate "DUP1" (mods d) 0 dup_a).
  { split_and!; [reflexivity|reflexivity|intros; lia]. }
  destruct (checkMatchHash_first_unmatched "DUP1" "/dl/one.jar" d 0 dup_a Hf)
    as (Hfirst & _ & _ & Hsecond & _).
  split_and!; [exact Hf|exact Hfirst|].
  refine (proj1 (Hsecond "/dl/two.jar" 1 dup_b _ eq_refl eq_refl _)); [lia|].
  intros; lia.
Defined.

Lemma validateMatchedMods_resets_stale_witness :
  let kept :=
    {| name := "Bar.jar"; websiteUrl := "https://mods.example/bar";
       hash := "def456"; matched := true; localPath := "/dl/Bar.jar" |} in
  let d := dialog_of [foo_matched; kept; dup_a] in
  let d' := validateMatchedMods (disk ["/dl/Bar.jar"]) d in
  mods d' =
    [{| name := "Foo.jar"; websiteUrl := "https://mods.example/foo";
        hash := "abc123"; matched := false; localPath := "" |};
     kept; dup_a]
  ∧ events d' = [Updated].
Proof.
  intros kept d d'.
  destruct (validateMatchedMods_resets_stale (disk ["/dl/Bar.jar"]) d)
    as (Hmods & _ & _ & Hupdate & _).
  split; [exact Hmods|].
  apply Hupdate. exists foo_matched. split; [left|reflexivity].
Defined.

Lemma scanPath_submits_named_files_witness :
  let fs := disk ["/dl/other.bin"; "/dl/FOO.JAR"; "/dl/Foo.jar.part"] in
  let d' := scanPath fs "/dl" (dialog_of [foo]) in
  m_queue (hashing_task d') =
    [{| hasher_path := "/dl/FOO.JAR"; hasher_provider := FLAME;
        hasher_type := "sha1" |}]
  ∧ events d' = [HashTaskAdded "/dl/FOO.JAR"; HashingStarted].
Proof.
  intros fs d'.
  destruct (scanPath_submits_named_files fs "/dl" (dialog_of [foo]))
    as (Hqueue & Hevents & _).
  split; [exact Hqueue|exact Hevents].
Defined.

(** The sentence of the specification on matched names does not hold: the
    only entry is matched at [/dl/Foo.jar], and a scan of [/dl] queues that
    file again. *)
Lemma scan_skips_matched_names_counterexample :
  ¬ @scan_skips_matched_names AsciiQt.qt.
Proof.
  intros Hclaim.
  apply (Hclaim (disk ["/dl/Foo.jar"]) "/dl" (dialog_of [foo_matched])
                "/dl/Foo.jar").
  - left.
  - exists foo_matched. split; [left|reflexivity].
  - intros m [->|Hm]%elem_of_cons; [reflexivity|]. by apply elem_of_nil in Hm.
  - left.
Qed.

Lemma scanPath_hashes_matched_names_witness :
  let fs := disk ["/dl/Foo.jar"] in
  let d := dialog_of [foo_matched] in
  "/dl/Foo.jar" ∈ fs_files fs "/dl"
  ∧ foo_matched ∈ mods d
  ∧ names foo_matched "/dl/Foo.jar" = true
  ∧ matched foo_matched = true
  ∧ hasher_of "/dl/Foo.jar" ∈ m_queue (hashing_task (scanPath fs "/dl" d))
  ∧ mods (hash_succeeded "abc123" (hasher_of "/dl/Foo.jar")
            (scanPath fs "/dl" d)) !! 0 = Some foo_matched.
Proof.
  intros fs d.
  assert (Hfile : "/dl/Foo.jar" ∈ fs_files fs "/dl") by left.
  assert (Hm : foo_matched ∈ mods d) by left.
  assert (Hn : names foo_matched "/dl/Foo.jar" = true) by reflexivity.
  destruct (scanPath_hashes_matched_names fs "/dl" d "/dl/Foo.jar" foo_matched
              Hfile Hm Hn) as (Hq & _ & Hkeep).
  split_and!; [exact Hfile|exact Hm|exact Hn|reflexivity|exact Hq|].
  exact (Hkeep "abc123" 0 foo_matched eq_refl eq_refl).
Defined.

Lemma hashing_pool_bounded_and_complete_witness :
  let d0 := BlockedModsDialog_new (disk []) "/nowhere" "/none" [foo] in
  let d1 := perform (DropEvent (map AsciiQt.LocalFile dropped_files)) d0 in
  let d := dispatch_tasks 10 d1 in
  dialog_reachable d
  ∧ m_started (hashing_task d0) = false
  ∧ length (m_queue (hashing_task d1)) = 12
  ∧ length (m_doing (hashing_task d)) = 10
  ∧ m_queue (hashing_task d) = [hasher_of "/tmp/11.jar"; hasher_of "/tmp/12.jar"]
  ∧ (∀ c', pool_step (hashing_task d) c' →
       m_queue c' = [hasher_of "/tmp/11.jar"; hasher_of "/tmp/12.jar"] ∧
       length (m_doing c') < 10)
  ∧ (∃ c', pool_steps 14 (hashing_task d) c' ∧ pool_idle c' ∧
           m_done c' ≡ₚ accepted (hashing_task d))
  ∧ length (accepted (hashing_task d)) = 12.
Proof.
  intros d0 d1 d.
  assert (Hreach : dialog_reachable d).
  { unfold d, dispatch_tasks. cbn [Nat.iter nat_rect].
    do 10 (apply dialog_reachable_dispatch;
           [|reflexivity|vm_compute; intros Hq; discriminate Hq
            |vm_compute; lia]).
    apply reachable_perform, reachable_new. }
  destruct (hashing_pool_bounded_and_complete d Hreach)
    as (_ & Hfull & _ & _ & Hrun).
  split_and!; [exact Hreach|reflexivity..| |exact Hrun|reflexivity].
  intros c' Hstep. exact (Hfull c' Hstep eq_refl).
Defined.

End Scenarios.

(** * Further properties of the dialog *)

(** ** The entries are never added, removed or renamed *)

Section Membership.
Context `{Qt}.
Implicit Types (d : Dialog) (ms : list BlockedMod) (m : BlockedMod).
Implicit Types (fs : FileSystem) (h path file : string).

Lemma mods_checkMatchHash_cases h path d :
  (∃ i m, first_candidate h (mods d) i m ∧
          checkMatchHash h path d =
            update (set_mods (<[i := set_localPath path (set_matched true m)]>
                                (mods d)) d))
  ∨ ((∀ m, m ∈ mods d → candidate h m = false) ∧ checkMatchHash h path d = d).
Proof.
  destruct (first_candidate_or_none h (mods d)) as [(i & m & Hf)|Hn].
  - left. exists i, m. split; [done|]. by apply checkMatchHash_first.
  - right. split; [done|]. by apply checkMatchHash_none.
Qed.

Lemma validateMatchedMods_fresh fs d :
  (∀ m, m ∈ mods d → stale fs m = false) → validateMatchedMods fs d = d.
Proof.
  intros Hall. rewrite validateMatchedMods_unfold.
  rewrite (proj2 (existsb_stale_false fs (mods d)) Hall).
  rewrite map_revalidated_id by done. by destruct d.
Qed.

Lemma entry_key_revalidated fs m : entry_key (revalidated fs m) = entry_key m.
Proof. unfold revalidated. by destruct (stale fs m). Qed.

Lemma entry_keys_checkMatchHash h path d :
  map entry_key (mods (checkMatchHash h path d)) = map entry_key (mods d).
Proof.
  destruct (mods_checkMatchHash_cases h path d)
    as [(i & m & (Hi & _) & ->)|[_ ->]]; [|done].
  simpl. change (map entry_key) with (fmap (M:=list) entry_key).
  rewrite list_fmap_insert. apply list_insert_id.
  by rewrite list_lookup_fmap, Hi.
Qed.

Lemma entry_keys_validateMatchedMods fs d :
  map entry_key (mods (validateMatchedMods fs d)) = map entry_key (mods d).
Proof.
  rewrite mods_validateMatchedMods, map_map. apply map_ext.
  intros m. apply entry_key_revalidated.
Qed.

Lemma entry_keys_perform (a : Action) d :
  map entry_key (mods (perform a d)) = map entry_key (mods d).
Proof.
  destruct a; unfold perform.
  - apply entry_keys_checkMatchHash.
  - apply entry_keys_validateMatchedMods.
  - unfold directoryChanged. cbv zeta. rewrite mods_scanPath.
    apply entry_keys_validateMatchedMods.
  - by rewrite mods_scanPath.
  - unfold addDownloadFolder. by rewrite mods_scanPath, mods_watcher_addPath.
  - by rewrite mods_dropEvent.
  - done.
Qed.

Lemma mods_scanPaths_fold fs dirs d :
  mods (fold_left (λ d dir, scanPath fs dir d) dirs d) = mods d.
Proof.
  revert d. induction dirs as [|dir dirs IH]; intros d; simpl; [done|].
  by rewrite IH, mods_scanPath.
Qed.

(** X1: the constructor takes the list of mods as it is given, and no
    handler ever adds, removes, reorders or renames an entry: after any run
    of operations the names, urls and hashes of the mods are, position by
    position, those the dialog was constructed with. *)
Theorem entries_are_never_replaced fs downloadsFolder modsFolder ms
    (actions : list Action) :
  let d0 := BlockedModsDialog_new fs downloadsFolder modsFolder ms in
  let d := perform_all actions d0 in
  mods d0 = ms
  ∧ map entry_key (mods d) = map entry_key ms
  ∧ length (mods d) = length ms
  ∧ (∀ i m, mods d !! i = Some m →
       ∃ m0, ms !! i = Some m0 ∧ name m = name m0 ∧
             websiteUrl m = websiteUrl m0 ∧ hash m = hash m0).
Proof.
  intros d0 d.
  assert (H0 : mods d0 = ms).
  { unfold d0, BlockedModsDialog_new, scanPaths. cbv zeta.
    change (mods (update ?x)) with (mods x). rewrite mods_scanPaths_fold.
    unfold setupWatch. by rewrite !mods_watcher_addPath. }
  assert (Hkeys : map entry_key (mods d) = map entry_key ms).
  { rewrite <- H0. unfold d, perform_all. generalize d0 as d1.
    induction actions as [|a actions IH]; intros d1; simpl; [done|].
    rewrite IH. apply entry_keys_perform. }
  split_and!; [done|done| |].
  - apply (f_equal length) in Hkeys. by rewrite !length_map in Hkeys.
  - intros i m Hi.
    assert (Hk : map entry_key ms !! i = Some (entry_key m)).
    { rewrite <- Hkeys. change (map entry_key) with (fmap (M:=list) entry_key).
      by rewrite list_lookup_fmap, Hi. }
    change (map entry_key) with (fmap (M:=list) entry_key) in Hk.
    rewrite list_lookup_fmap in Hk.
    destruct (ms !! i) as [m0|] eqn:Hm0; [|done].
    exists m0. simpl in Hk. injection Hk as Hn Hu Hh. by rewrite Hn, Hu, Hh.
Qed.

End Membership.

(** ** The window shows the mods as they are *)

Section UiInSync.
Context `{Qt}.
Implicit Types (d : Dialog) (ms : list BlockedMod) (m : BlockedMod).
Implicit Types (fs : FileSystem) (h path file : string).

Lemma ui_in_sync_update d : ui_in_sync (update d).
Proof. by split. Qed.

Lemma ui_in_sync_same d d' :
  mods d' = mods d → ui d' = ui d → ui_in_sync d → ui_in_sync d'.
Proof.
  unfold ui_in_sync, allModsMatched. intros -> ->. done.
Qed.

Lemma ui_in_sync_checkMatchHash h path d :
  ui_in_sync d → ui_in_sync (checkMatchHash h path d).
Proof.
  intros Hs. destruct (mods_checkMatchHash_cases h path d)
    as [(i & m & _ & ->)|[_ ->]]; [apply ui_in_sync_update|done].
Qed.

Lemma ui_in_sync_validateMatchedMods fs d :
  ui_in_sync d → ui_in_sync (validateMatchedMods fs d).
Proof.
  intros Hs. destruct (existsb (stale fs) (mods d)) eqn:He.
  - rewrite validateMatchedMods_unfold, He. apply ui_in_sync_update.
  - rewrite validateMatchedMods_fresh; [done|]. by apply existsb_stale_false.
Qed.

Lemma ui_scanPath fs path d : ui (scanPath fs path d) = ui d.
Proof. unfold scanPath. by rewrite scanPath_loop_spec. Qed.

Lemma ui_in_sync_scanPath fs path d :
  ui_in_sync d → ui_in_sync (scanPath fs path d).
Proof. apply ui_in_sync_same; [apply mods_scanPath|apply ui_scanPath]. Qed.

Lemma ui_in_sync_perform (a : Action) d :
  ui_in_sync d → ui_in_sync (perform a d).
Proof.
  intros Hs. destruct a; unfold perform.
  - by apply ui_in_sync_checkMatchHash.
  - by apply ui_in_sync_validateMatchedMods.
  - unfold directoryChanged. cbv zeta.
    by apply ui_in_sync_scanPath, ui_in_sync_validateMatchedMods.
  - by apply ui_in_sync_scanPath.
  - unfold addDownloadFolder. apply ui_in_sync_scanPath.
    destruct (watcher_addPath_keeps fs dir d) as (Hm & Hu & _).
    by apply (ui_in_sync_same d).
  - unfold dropEvent. rewrite dropEvent_loop_spec. exact Hs.
  - apply ui_in_sync_update.
Qed.

Lemma dialog_reachable_ui_in_sync d : dialog_reachable d → ui_in_sync d.
Proof.
  induction 1 as [fs dl mf ms|a d Hd IH|d c' Hd IH Hstep].
  - apply ui_in_sync_update.
  - by apply ui_in_sync_perform.
  - exact IH.
Qed.

(** X2: the window is never stale.  In every state the dialog reaches (it is
    constructed, handlers run, the pool steps) the text browser holds one
    line per mod, in order, with the mod's name, url and hash and with
    "found at" its local path exactly when it is matched, and the label says
    "all mods found" exactly when every mod is matched: each function that
    changes a mod calls [update] before it returns. *)
Theorem window_shows_current_mods d :
  dialog_reachable d →
  length (textBrowser (ui d)) = length (mods d)
  ∧ (∀ i m, mods d !! i = Some m →
       textBrowser (ui d) !! i =
         Some {| line_name := name m; line_url := websiteUrl m;
                 line_hash := hash m;
                 line_span :=
                   if matched m then Found (localPath m) else NotFound |})
  ∧ (labelModsFound (ui d) = AllModsFound ↔
       ∀ m, m ∈ mods d → matched m = true)
  ∧ (labelModsFound (ui d) = PleaseDownload ↔
       ∃ m, m ∈ mods d ∧ matched m = false).
Proof.
  intros [Htext Hlabel]%dialog_reachable_ui_in_sync. split_and!.
  - by rewrite Htext, length_map.
  - intros i m Hi. rewrite Htext.
    change (map render) with (fmap (M:=list) render).
    by rewrite list_lookup_fmap, Hi.
  - rewrite Hlabel. unfold allModsMatched.
    rewrite <- all_of_Forall. by destruct (all_of matched (mods d)).
  - rewrite Hlabel. unfold allModsMatched.
    destruct (all_of matched (mods d)) eqn:Hall.
    + split; [done|]. intros (m & Hm & Hf).
      rewrite (proj1 (all_of_Forall matched (mods d)) Hall m Hm) in Hf. done.
    + split; [intros _|done].
      clear Hlabel Htext. induction (mods d) as [|m ms IH]; [done|].
      simpl in Hall. destruct (matched m) eqn:Hm.
      * destruct (IH Hall) as (m' & Hm' & Hf). exists m'. split; [by right|done].
      * exists m. split; [left|done].
Qed.

End UiInSync.

(** ** Revalidation and confirmation, on their own and in sequence *)

Section Matching.
Context `{Qt}.
Implicit Types (d : Dialog) (ms : list BlockedMod) (m : BlockedMod).
Implicit Types (fs : FileSystem) (h path file : string).

(** X3: after [validateMatchedMods] every matched entry points to a file
    that exists and is a regular file on the disk that was read, and a
    second revalidation against the same disk does nothing, an [update]
    included. *)
Theorem validateMatchedMods_idempotent fs d :
  let d' := validateMatchedMods fs d in
  (∀ m, m ∈ mods d' → matched m = true →
     fs_exists fs (localPath m) = true ∧ fs_isFile fs (localPath m) = true)
  ∧ validateMatchedMods fs d' = d'
  ∧ events (validateMatchedMods fs d') = events d'.
Proof.
  intros d'.
  assert (Hfresh : ∀ m, m ∈ mods d' → stale fs m = false).
  { intros m. unfold d'. rewrite mods_validateMatchedMods.
    intros (m0 & -> & _)%list_elem_of_fmap_1. apply revalidated_not_stale. }
  split_and!.
  - intros m Hm Hmatched. specialize (Hfresh m Hm). unfold stale in Hfresh.
    rewrite Hmatched in Hfresh. simpl in Hfresh.
    apply negb_false_iff, andb_true_iff in Hfresh. done.
  - by apply validateMatchedMods_fresh.
  - by rewrite validateMatchedMods_fresh.
Qed.

Lemma perform_keeps_matched (a : Action) d i m :
  keeps_matches a → mods d !! i = Some m → matched m = true →
  mods (perform a d) !! i = Some m.
Proof.
  destruct a; unfold perform, keeps_matches; intros Hk Hi Hm; try done.
  - by apply checkMatchHash_keeps_matched.
  - by rewrite mods_scanPath.
  - unfold addDownloadFolder. by rewrite mods_scanPath, mods_watcher_addPath.
  - by rewrite mods_dropEvent.
Qed.

(** X4: the first writer wins for good.  An entry that is matched keeps its
    [matched] flag and its local path through any run of hash results,
    scans, drops and updates; only a revalidation can take the match
    away. *)
Theorem matched_entry_is_never_overwritten (actions : list Action) d i m :
  Forall keeps_matches actions →
  mods d !! i = Some m → matched m = true →
  mods (perform_all actions d) !! i = Some m.
Proof.
  intros Hall. unfold perform_all. revert d.
  induction Hall as [|a actions Ha _ IH]; intros d Hi Hm; simpl; [done|].
  apply IH; [|done]. by apply perform_keeps_matched.
Qed.

Lemma filter_length_insert {A} (p : A → bool) (l : list A) i x y :
  l !! i = Some x → p x = true → p y = false →
  S (length (List.filter p (<[i := y]> l))) = length (List.filter p l).
Proof.
  revert i. induction l as [|z l IH]; intros i Hi Hx Hy; [done|].
  destruct i as [|i]; simpl in *.
  - injection Hi as ->. by rewrite Hx, Hy.
  - destruct (p z); simpl; rewrite <- (IH i); done.
Qed.

Lemma filter_length_insert_gain {A} (p : A → bool) (l : list A) i x y :
  l !! i = Some x → p x = false → p y = true →
  length (List.filter p (<[i := y]> l)) = S (length (List.filter p l)).
Proof.
  revert i. induction l as [|z l IH]; intros i Hi Hx Hy; [done|].
  destruct i as [|i]; simpl in *.
  - injection Hi as ->. by rewrite Hx, Hy.
  - destruct (p z); simpl; rewrite (IH i); done.
Qed.

Lemma filter_length_zero {A} (p : A → bool) (l : list A) :
  (∀ x, x ∈ l → p x = false) → length (List.filter p l) = 0.
Proof.
  induction l as [|z l IH]; intros Hall; [done|]. simpl.
  rewrite (Hall z) by left. apply IH. intros x Hx. apply Hall. by right.
Qed.

Lemma counts_checkMatchHash h path d :
  candidate_count h (mods (checkMatchHash h path d)) =
    candidate_count h (mods d) - 1
  ∧ matched_count (mods (checkMatchHash h path d)) =
      matched_count (mods d) + Nat.min 1 (candidate_count h (mods d)).
Proof.
  unfold candidate_count, matched_count.
  destruct (mods_checkMatchHash_cases h path d)
    as [(i & m & (Hi & Hc & _) & ->)|[Hn ->]].
  - simpl.
    pose proof (filter_length_insert (candidate h) (mods d) i m
                  (set_localPath path (set_matched true m)) Hi Hc
                  (candidate_taken h path m)) as Hless.
    assert (Hm : matched m = false).
    { unfold candidate in Hc. by destruct (matched m). }
    rewrite (filter_length_insert_gain matched (mods d) i m
               (set_localPath path (set_matched true m)) Hi Hm eq_refl).
    rewrite <- Hless. simpl. split; lia.
  - rewrite (filter_length_zero (candidate h)) by done. simpl. lia.
Qed.

(** X5: several files with one hash.  When [n] hash tasks end with the hash
    [h], they fill as many entries that wait for [h] as there are, up to
    [n]: the number of unmatched entries with hash [h] goes down by [n] (to
    zero at most) and the number of matched entries goes up by the same
    amount. *)
Theorem hash_results_fill_waiting_entries h (paths : list string) d :
  let d' := perform_all (hash_results h paths) d in
  candidate_count h (mods d') = candidate_count h (mods d) - length paths
  ∧ matched_count (mods d') =
      matched_count (mods d) +
      Nat.min (length paths) (candidate_count h (mods d)).
Proof.
  unfold perform_all, hash_results. revert d.
  induction paths as [|path paths IH]; intros d;
    cbn [map fold_left length perform].
  - split; lia.
  - destruct (IH (checkMatchHash h path d)) as [-> ->].
    destruct (counts_checkMatchHash h path d) as [-> ->]. split; lia.
Qed.

Lemma allModsMatched_no_candidate h d :
  allModsMatched d = true → ∀ m, m ∈ mods d → candidate h m = false.
Proof.
  intros Hall m Hm. unfold candidate.
  by rewrite (proj1 (all_of_Forall matched (mods d)) Hall m Hm).
Qed.

(** X6: once every mod is matched, hash results that arrive late change
    nothing: the mods, the window and the list of events stay as they are
    through any number of calls of [checkMatchHash]. *)
Theorem complete_dialog_ignores_hash_results
    (results : list (string * string)) d :
  allModsMatched d = true →
  perform_all (map (λ r, CheckMatchHash r.1 r.2) results) d = d.
Proof.
  intros Hall. unfold perform_all.
  induction results as [|[h path] results IH]; simpl; [done|].
  rewrite checkMatchHash_none; [done|]. by apply allModsMatched_no_candidate.
Qed.

(** X7: [update] is called exactly when something changed.  A call of
    [checkMatchHash] and a call of [validateMatchedMods] each either leave
    the whole dialog as it was, or change the mods and append exactly one
    [update]. *)
Theorem mutators_notify_iff_changed h path fs d :
  (let d' := checkMatchHash h path d in
   d' = d ∨ (mods d' ≠ mods d ∧ events d' = events d ++ [Updated] ∧
             ui_in_sync d'))
  ∧ (let d' := validateMatchedMods fs d in
     d' = d ∨ (mods d' ≠ mods d ∧ events d' = events d ++ [Updated] ∧
               ui_in_sync d')).
Proof.
  split; intros d'.
  - destruct (mods_checkMatchHash_cases h path d)
      as [(i & m & (Hi & Hc & _) & Hd')|[_ Hd']]; [right|by left].
    unfold d'. rewrite Hd'. split_and!; [|done|apply ui_in_sync_update].
    simpl. intros Heq. apply (f_equal (λ l, l !! i)) in Heq.
    rewrite list_lookup_insert_eq in Heq by (by eapply lookup_lt_Some).
    rewrite Hi in Heq. injection Heq as Heq. rewrite <- Heq in Hc. done.
  - destruct (existsb (stale fs) (mods d)) eqn:He.
    + right. unfold d'. rewrite validateMatchedMods_unfold, He.
      split_and!; [|done|apply ui_in_sync_update].
      simpl. apply existsb_stale_true in He as (m & Hm & Hs).
      intros Heq. apply list_elem_of_lookup_1 in Hm as [i Hi].
      apply (f_equal (λ l, l !! i)) in Heq.
      change (map (revalidated fs)) with (fmap (M:=list) (revalidated fs)) in Heq.
      rewrite list_lookup_fmap, Hi in Heq. simpl in Heq.
      injection Heq as Heq. unfold revalidated in Heq. rewrite Hs in Heq.
      unfold stale in Hs. rewrite <- Heq in Hs. done.
    + left. apply validateMatchedMods_fresh. by apply existsb_stale_false.
Qed.

End Matching.

(** ** Scans, rescans and what their results do *)

Section Rescanning.
Context `{Qt}.
Implicit Types (d : Dialog) (ms : list BlockedMod) (m : BlockedMod).
Implicit Types (fs : FileSystem) (h path dir file : string).

Lemma entry_keys_perform_all (actions : list Action) d :
  map entry_key (mods (perform_all actions d)) = map entry_key (mods d).
Proof.
  unfold perform_all. revert d.
  induction actions as [|a actions IH]; intros d; simpl; [done|].
  rewrite IH. apply entry_keys_perform.
Qed.

Lemma checkValidPath_loop_names filename ms ms' :
  map name ms = map name ms' →
  checkValidPath_loop filename ms = checkValidPath_loop filename ms'.
Proof.
  revert ms'. induction ms as [|m ms IH]; intros [|m' ms'] Heq; try done.
  simpl in *. injection Heq as -> Heq. by rewrite (IH ms').
Qed.

Lemma relevant_files_keys d d' files :
  map entry_key (mods d') = map entry_key (mods d) →
  relevant_files d' files = relevant_files d files.
Proof.
  intros Hkeys. unfold relevant_files. apply filter_ext. intros file.
  unfold checkValidPath. apply checkValidPath_loop_names.
  apply (f_equal (map (λ k : string * string * string, k.1.1))) in Hkeys.
  by rewrite !map_map in Hkeys.
Qed.

Lemma queue_scanPath fs dir d :
  m_queue (hashing_task (scanPath fs dir d)) =
    m_queue (hashing_task d) ++
    map hasher_of (relevant_files d (fs_files fs dir)).
Proof. unfold scanPath. by rewrite scanPath_loop_spec. Qed.

Lemma queued_since_scanPath fs dir d :
  queued_since d (scanPath fs dir d) =
    map hasher_of (relevant_files d (fs_files fs dir)).
Proof.
  unfold queued_since, scanPath. rewrite scanPath_loop_spec. simpl.
  by rewrite drop_app_length.
Qed.

(** X8: what a scan queues depends on the listing of the directory and on
    the names of the entries, and on nothing else: not on which entries are
    matched, not on earlier scans, drops or hash results.  So a second scan
    of an unchanged directory queues every relevant file once more; the
    scan itself never changes a mod. *)
Theorem rescan_queues_the_same_files_again (actions : list Action) fs dir d :
  let d1 := perform_all actions d in
  let tasks := map hasher_of (relevant_files d (fs_files fs dir)) in
  queued_since d1 (scanPath fs dir d1) = tasks
  ∧ queued_since d1 (scanPath fs dir (scanPath fs dir d1)) = tasks ++ tasks
  ∧ mods (scanPath fs dir (scanPath fs dir d1)) = mods d1.
Proof.
  intros d1 tasks.
  assert (Hrel : ∀ d2, mods d2 = mods d1 →
            map hasher_of (relevant_files d2 (fs_files fs dir)) = tasks).
  { intros d2 Hm. unfold tasks. f_equal. apply relevant_files_keys.
    rewrite Hm. apply entry_keys_perform_all. }
  split_and!.
  - rewrite queued_since_scanPath. by apply Hrel.
  - unfold queued_since. rewrite !queue_scanPath.
    rewrite (Hrel (scanPath fs dir d1)) by apply mods_scanPath.
    rewrite (Hrel d1) by done.
    by rewrite <- app_assoc, drop_app_length.
  - by rewrite !mods_scanPath.
Qed.

Lemma scanPaths_fold_spec fs dirs d d1 :
  mods d1 = mods d →
  let d2 := fold_left (λ d dir, scanPath fs dir d) dirs d1 in
  m_queue (hashing_task d2) =
    m_queue (hashing_task d1) ++
    flat_map (λ dir, map hasher_of (relevant_files d (fs_files fs dir))) dirs
  ∧ watcher d2 = watcher d1.
Proof.
  revert d1. induction dirs as [|dir dirs IH]; intros d1 Hm; simpl.
  - by rewrite app_nil_r.
  - destruct (IH (scanPath fs dir d1)) as [-> ->];
      [by rewrite mods_scanPath|].
    unfold scanPath. rewrite scanPath_loop_spec. simpl.
    rewrite <- app_assoc. split; [|done]. do 3 f_equal.
    apply relevant_files_keys. by rewrite Hm.
Qed.

(** X9: [scanPaths] scans the watched directories one after the other: the
    queue grows by the relevant files of each directory, in the order of the
    directories, and no mod changes.  When no directory is watched it does
    nothing at all, the pool is not even started; with a directory the pool
    is started. *)
Theorem scanPaths_scans_every_watched_directory fs d :
  let d' := scanPaths fs d in
  m_queue (hashing_task d') =
    m_queue (hashing_task d) ++
    flat_map (λ dir, map hasher_of (relevant_files d (fs_files fs dir)))
             (watcher d)
  ∧ mods d' = mods d
  ∧ watcher d' = watcher d
  ∧ (watcher d = [] ↔ d' = d)
  ∧ (watcher d ≠ [] → m_started (hashing_task d') = true).
Proof.
  intros d'. unfold d', scanPaths.
  destruct (scanPaths_fold_spec fs (watcher d) d d eq_refl) as [Hq Hw].
  split_and!; [done|apply mods_scanPaths_fold|done| |].
  - split.
    + by intros ->.
    + destruct (watcher d) as [|dir dirs] eqn:Hdirs; [done|]. intros Heq.
      apply (f_equal events) in Heq. exfalso. revert Heq. simpl.
      assert (Hgrow : ∀ dirs d1, length (events d1) ≤
                length (events (fold_left (λ d dir, scanPath fs dir d) dirs d1))).
      { clear. intros dirs. induction dirs as [|dir dirs IH]; intros d1; simpl;
          [done|]. etrans; [|apply IH]. unfold scanPath.
        rewrite scanPath_loop_spec. simpl. rewrite !length_app. lia. }
      intros Heq. specialize (Hgrow dirs (scanPath fs dir d)).
      rewrite Heq in Hgrow. unfold scanPath in Hgrow.
      rewrite scanPath_loop_spec in Hgrow. simpl in Hgrow.
      rewrite !length_app in Hgrow. simpl in Hgrow. lia.
  - destruct (watcher d) as [|dir dirs]; [done|]. intros _. simpl.
    assert (Hst : ∀ dirs d1, m_started (hashing_task d1) = true →
              m_started (hashing_task
                (fold_left (λ d dir, scanPath fs dir d) dirs d1)) = true).
    { clear. intros dirs. induction dirs as [|dir dirs IH]; intros d1 Hs; simpl;
        [done|]. apply IH. unfold scanPath. by rewrite scanPath_loop_spec. }
    apply Hst. unfold scanPath. by rewrite scanPath_loop_spec.
Qed.

(** X10: from the scan to the match.  A listed file that passes the name
    check is queued, and when its task ends with the hash [h] the first
    unmatched entry with hash [h] is matched to that file; this need not be
    the entry whose name let the file pass. *)
Theorem scanned_file_matches_first_waiting_entry fs dir d file h i m :
  file ∈ fs_files fs dir →
  checkValidPath file d = true →
  first_candidate h (mods d) i m →
  let d1 := scanPath fs dir d in
  hasher_of file ∈ queued_since d d1
  ∧ mods (hash_succeeded h (hasher_of file) d1) =
      <[i := {| name := name m; websiteUrl := websiteUrl m; hash := hash m;
                matched := true; localPath := file |}]> (mods d)
  ∧ (∃ m1, mods (hash_succeeded h (hasher_of file) d1) !! i = Some m1 ∧
           matched m1 = true ∧ localPath m1 = file)
  ∧ ui_in_sync (hash_succeeded h (hasher_of file) d1).
Proof.
  intros Hfile Hvalid Hf d1.
  assert (Hm1 : mods d1 = mods d) by apply mods_scanPath.
  assert (Hq : hasher_of file ∈ queued_since d d1).
  { unfold d1. rewrite queued_since_scanPath. apply list_elem_of_fmap_2.
    apply elem_of_relevant_files. split; [done|]. by apply checkValidPath_spec. }
  clearbody d1. rewrite <- Hm1 in Hf. unfold hash_succeeded.
  rewrite (checkMatchHash_first _ _ _ _ _ Hf). split_and!.
  - done.
  - simpl. by rewrite Hm1.
  - exists (set_localPath file (set_matched true m)). split; [|done]. simpl.
    apply list_lookup_insert_eq. destruct Hf as (Hi & _).
    by eapply lookup_lt_Some.
  - apply ui_in_sync_update.
Qed.

(** X11: nothing keeps one file from standing for two entries.  When two
    tasks for the same file end with the hash [h] (the file was queued by
    two scans) and two entries wait for [h], both entries are matched, to
    the same local path. *)
Theorem one_file_can_match_two_entries h file d i m j m2 :
  first_candidate h (mods d) i m →
  i < j → mods d !! j = Some m2 → candidate h m2 = true →
  (∀ k mk, i < k < j → mods d !! k = Some mk → candidate h mk = false) →
  let d2 := hash_succeeded h (hasher_of file)
              (hash_succeeded h (hasher_of file) d) in
  mods d2 !! i =
    Some {| name := name m; websiteUrl := websiteUrl m; hash := hash m;
            matched := true; localPath := file |}
  ∧ mods d2 !! j =
      Some {| name := name m2; websiteUrl := websiteUrl m2; hash := hash m2;
              matched := true; localPath := file |}
  ∧ (∃ mi mj, mods d2 !! i = Some mi ∧ mods d2 !! j = Some mj ∧
              matched mi = true ∧ matched mj = true ∧
              localPath mi = file ∧ localPath mj = localPath mi)
  ∧ matched_count (mods d2) = S (S (matched_count (mods d))).
Proof.
  intros Hf Hij Hj Hc2 Hbetween d2.
  pose proof (first_candidate_after h file _ _ _ _ _ Hf Hij Hj Hc2 Hbetween)
    as Hf2.
  assert (Hd2 : mods d2 =
            <[j := set_localPath file (set_matched true m2)]>
              (<[i := set_localPath file (set_matched true m)]> (mods d))).
  { unfold d2, hash_succeeded.
    change (hasher_path (hasher_of file)) with file.
    rewrite (checkMatchHash_first h file d i m Hf).
    by rewrite (checkMatchHash_first h file
                  (update (set_mods
                     (<[i := set_localPath file (set_matched true m)]> (mods d))
                     d)) j m2 Hf2). }
  destruct Hf as (Hi & Hc & _).
  assert (Hm : matched m = false) by (unfold candidate in Hc; by destruct (matched m)).
  assert (Hm2 : matched m2 = false)
    by (unfold candidate in Hc2; by destruct (matched m2)).
  assert (Hi2 : mods d2 !! i = Some (set_localPath file (set_matched true m))).
  { rewrite Hd2, list_lookup_insert_ne by lia.
    apply list_lookup_insert_eq. by eapply lookup_lt_Some. }
  assert (Hj2 : mods d2 !! j = Some (set_localPath file (set_matched true m2))).
  { rewrite Hd2. apply list_lookup_insert_eq. rewrite length_insert.
    by eapply lookup_lt_Some. }
  split_and!.
  - exact Hi2.
  - exact Hj2.
  - by exists (set_localPath file (set_matched true m)),
              (set_localPath file (set_matched true m2)).
  - rewrite Hd2. unfold matched_count.
    rewrite (filter_length_insert_gain matched _ j m2
               (set_localPath file (set_matched true m2)));
      [|by rewrite list_lookup_insert_ne by lia|done|done].
    by rewrite (filter_length_insert_gain matched _ i m
                  (set_localPath file (set_matched true m))).
Qed.

(** X12: a match that was lost can be found again.  When the file of a
    matched entry is gone, a change of a watched directory resets the entry,
    and the next hash result with its hash matches it again, to the new
    path, provided no earlier entry waits for that hash. *)
Theorem reset_entry_is_matched_again fs dir h path d i m :
  mods d !! i = Some m → stale fs m = true → equal_ci (hash m) h = true →
  (∀ j m', j < i → mods d !! j = Some m' →
           candidate h (revalidated fs m') = false) →
  let d1 := directoryChanged fs dir d in
  mods d1 !! i = Some (set_matched false (set_localPath "" m))
  ∧ mods (checkMatchHash h path d1) !! i =
      Some {| name := name m; websiteUrl := websiteUrl m; hash := hash m;
              matched := true; localPath := path |}.
Proof.
  intros Hi Hs He Hbefore d1.
  assert (Hd1 : mods d1 = revalidated fs <$> mods d).
  { unfold d1, directoryChanged. cbv zeta.
    by rewrite mods_scanPath, mods_validateMatchedMods. }
  assert (Hi1 : mods d1 !! i = Some (set_matched false (set_localPath "" m))).
  { rewrite Hd1, list_lookup_fmap, Hi. simpl. unfold revalidated. by rewrite Hs. }
  split; [done|].
  rewrite (checkMatchHash_first h path d1 i
             (set_matched false (set_localPath "" m))).
  - simpl. rewrite list_lookup_insert_eq by (by eapply lookup_lt_Some). done.
  - split_and!; [done| |].
    + unfold candidate. simpl. exact He.
    + intros j m' Hj Hm'. rewrite Hd1, list_lookup_fmap in Hm'.
      destruct (mods d !! j) as [m0|] eqn:Hm0; [|done].
      simpl in Hm'. injection Hm' as <-. by eapply Hbefore.
Qed.

End Rescanning.

(** ** The further properties, each at a concrete dialog *)

Section FurtherScenarios.
Import Scenario.
#[local] Existing Instance AsciiQt.qt.

Lemma window_shows_current_mods_witness :
  let d := perform (CheckMatchHash "ABC123" "/dl/Foo.jar")
             (BlockedModsDialog_new (disk ["/dl/Foo.jar"]) "/dl" "/mods" [foo]) in
  dialog_reachable d
  ∧ length (textBrowser (ui d)) = 1
  ∧ textBrowser (ui d) !! 0 =
      Some {| line_name := "Foo.jar"; line_url := "https://mods.example/foo";
              line_hash := "abc123"; line_span := Found "/dl/Foo.jar" |}.
Proof.
  intros d.
  assert (Hreach : dialog_reachable d)
    by apply reachable_perform, reachable_new.
  destruct (window_shows_current_mods d Hreach) as (Hlen & Hline & _).
  split_and!; [exact Hreach|exact Hlen|].
  exact (Hline 0 (set_localPath "/dl/Foo.jar" (set_matched true foo)) eq_refl).
Defined.

Lemma matched_entry_is_never_overwritten_witness :
  let d := dialog_of [foo_matched; blocked "Copy.jar" "https://mods.example/c" "ABC123"] in
  let actions :=
    [CheckMatchHash "abc123" "/dl/other.jar";
     ScanPath (disk ["/dl/Foo.jar"]) "/dl";
     DropEvent [AsciiQt.LocalFile "/tmp/Foo.jar"];
     CheckMatchHash "abc123" "/tmp/Foo.jar"] in
  Forall keeps_matches actions
  ∧ mods d !! 0 = Some foo_matched
  ∧ mods (perform_all actions d) !! 0 = Some foo_matched.
Proof.
  intros d actions.
  assert (Hall : Forall keeps_matches actions) by (repeat constructor).
  split_and!; [exact Hall|reflexivity|].
  exact (matched_entry_is_never_overwritten actions d 0 foo_matched Hall
           eq_refl eq_refl).
Defined.

Lemma complete_dialog_ignores_hash_results_witness :
  let d := dialog_of [foo_matched] in
  allModsMatched d = true
  ∧ perform_all [CheckMatchHash "abc123" "/dl/late.jar";
                 CheckMatchHash "zzz999" "/dl/later.jar"] d = d.
Proof.
  intros d.
  assert (Hall : allModsMatched d = true) by reflexivity.
  split; [exact Hall|].
  exact (complete_dialog_ignores_hash_results
           [("abc123", "/dl/late.jar"); ("zzz999", "/dl/later.jar")] d Hall).
Defined.

Lemma scanned_file_matches_first_waiting_entry_witness :
  let bar := blocked "Bar.jar" "https://mods.example/bar" "def456" in
  let d := dialog_of [foo; bar] in
  let fs := disk ["/dl/Foo.jar"] in
  "/dl/Foo.jar" ∈ fs_files fs "/dl"
  ∧ checkValidPath "/dl/Foo.jar" d = true
  ∧ first_candidate "DEF456" (mods d) 1 bar
  ∧ mods (hash_succeeded "DEF456" (hasher_of "/dl/Foo.jar") (scanPath fs "/dl" d)) =
      [foo;
       {| name := "Bar.jar"; websiteUrl := "https://mods.example/bar";
          hash := "def456"; matched := true; localPath := "/dl/Foo.jar" |}].
Proof.
  intros bar d fs.
  assert (Hfile : "/dl/Foo.jar" ∈ fs_files fs "/dl") by left.
  assert (Hvalid : checkValidPath "/dl/Foo.jar" d = true) by reflexivity.
  assert (Hf : first_candidate "DEF456" (mods d) 1 bar).
  { split_and!; [reflexivity|reflexivity|].
    intros [|j] m' Hj Hm'; [|lia]. injection Hm' as <-. reflexivity. }
  destruct (scanned_file_matches_first_waiting_entry fs "/dl" d "/dl/Foo.jar"
              "DEF456" 1 bar Hfile Hvalid Hf) as (_ & Hmods & _ & _).
  split_and!; [exact Hfile|exact Hvalid|exact Hf|exact Hmods].
Defined.

Lemma one_file_can_match_two_entries_witness :
  let d := dialog_of [dup_a; dup_b] in
  let d2 := hash_succeeded "dup1" (hasher_of "/dl/one.jar")
              (hash_succeeded "dup1" (hasher_of "/dl/one.jar") d) in
  first_candidate "dup1" (mods d) 0 dup_a
  ∧ mods d2 !! 0 =
      Some {| name := "A.jar"; websiteUrl := "https://mods.example/a";
              hash := "dup1"; matched := true; localPath := "/dl/one.jar" |}
  ∧ mods d2 !! 1 =
      Some {| name := "B.jar"; websiteUrl := "https://mods.example/b";
              hash := "dup1"; matched := true; localPath := "/dl/one.jar" |}.
Proof.
  intros d d2.
  assert (Hf : first_candidate "dup1" (mods d) 0 dup_a).
  { split_and!; [reflexivity|reflexivity|intros; lia]. }
  assert (Hbetween : ∀ k mk, 0 < k < 1 → mods d !! k = Some mk →
                             candidate "dup1" mk = false) by (intros; lia).
  destruct (one_file_can_match_two_entries "dup1" "/dl/one.jar" d 0 dup_a 1 dup_b
              Hf (Nat.lt_0_1) eq_refl eq_refl Hbetween) as (H0 & H1 & _).
  split_and!; [exact Hf|exact H0|exact H1].
Defined.

Lemma reset_entry_is_matched_again_witness :
  let d := dialog_of [foo_matched] in
  let fs := disk ["/dl/Foo (1).jar"] in
  stale fs foo_matched = true
  ∧ mods (directoryChanged fs "/dl" d) !! 0 = Some foo
  ∧ mods (checkMatchHash "abc123" "/dl/Foo (1).jar" (directoryChanged fs "/dl" d))
      !! 0 = Some (set_localPath "/dl/Foo (1).jar" (set_matched true foo)).
Proof.
  intros d fs.
  assert (Hs : stale fs foo_matched = true) by reflexivity.
  assert (He : equal_ci (hash foo_matched) "abc123" = true) by reflexivity.
  assert (Hbefore : ∀ j m', j < 0 → mods d !! j = Some m' →
            candidate "abc123" (revalidated fs m') = false) by (intros; lia).
  destruct (reset_entry_is_matched_again fs "/dl" "abc123" "/dl/Foo (1).jar" d 0
              foo_matched eq_refl Hs He Hbefore) as (Hreset & Hagain).
  split_and!; [exact Hs|exact Hreset|exact Hagain].
Defined.

End FurtherScenarios.
